(** * Jolt/Core/JobSystem.h: the life cycle of a Job

    A shallow embedding of [JobSystem::Job] and [JobSystem::JobHandle].
    The three atomics of a Job ([mBarrier], [mReferenceCount],
    [mNumDependencies]) are accessed with the default memory order of
    [std::atomic], which is sequentially consistent, so a concurrent run is
    an interleaving of the individual atomic operations.  Each operation of
    a Job is a function on the Job's fields; [Execute], the only operation
    made of several atomic accesses, is cut at its program points; a run of
    the whole system is a list of labels, one per atomic step. *)

From Stdlib Require Import ZArith Lia Bool.
From stdpp Require Import base list.

Local Open Scope Z_scope.

(** ** std::atomic on a 32-bit unsigned cell and on an intptr_t cell *)
Module Atomic.

Definition wrap32 (z : Z) : Z := z mod 2 ^ 32.

(** [cell.compare_exchange_strong(expected, desired)]: the result is
    (success, new contents of the cell, new value of [expected]). *)
Definition compare_exchange_strong (cell expected desired : Z) : bool * Z * Z :=
  if cell =? expected then (true, desired, expected) else (false, cell, cell).

(** [cell.fetch_add(arg)] on [atomic<uint32>]: (old value, new contents). *)
Definition fetch_add (cell arg : Z) : Z * Z := (cell, wrap32 (cell + arg)).

(** [cell.fetch_sub(arg)] on [atomic<uint32>]: (old value, new contents). *)
Definition fetch_sub (cell arg : Z) : Z * Z := (cell, wrap32 (cell - arg)).

(** [++cell] and [--cell] on [atomic<uint32>]: the new value, which is
    also what the expression returns. *)
Definition pre_increment (cell : Z) : Z := wrap32 (cell + 1).
Definition pre_decrement (cell : Z) : Z := wrap32 (cell - 1).

End Atomic.

(** ** The Job *)

(** Calls that leave the Job: the payload, the barrier's callback and the
    two calls into the owning job system. *)
Inductive Event : Type :=
  | EvJobFunction                    (* mJobFunction() *)
  | EvOnJobFinished (barrier : Z)    (* reinterpret_cast<Barrier *>(barrier)->OnJobFinished(this) *)
  | EvFreeJob                        (* mJobSystem->FreeJob(this) *)
  | EvQueueJob.                      (* mJobSystem->QueueJob(this) *)

Record Job : Type := mkJobFields {
  mBarrier : Z;            (* atomic<intptr_t>, 0 when no barrier is set *)
  mReferenceCount : Z;     (* atomic<uint32> *)
  mNumDependencies : Z     (* atomic<uint32> *)
}.

Definition cExecutingState : Z := 0xe0e0e0e0.
Definition cDoneState : Z := 0xd0d0d0d0.
(** [~intptr_t(0)]: every bit set, which is -1 whatever the width. *)
Definition cBarrierDoneState : Z := Z.lnot 0.

(** The constructor: [mReferenceCount(0)], [mNumDependencies(inNumDependencies)]
    and the default member initialiser [mBarrier = 0]. *)
Definition newJob (inNumDependencies : Z) : Job :=
  {| mBarrier := 0; mReferenceCount := 0; mNumDependencies := inNumDependencies |}.

Definition set_mBarrier (v : Z) (j : Job) : Job :=
  {| mBarrier := v; mReferenceCount := mReferenceCount j;
     mNumDependencies := mNumDependencies j |}.
Definition set_mReferenceCount (v : Z) (j : Job) : Job :=
  {| mBarrier := mBarrier j; mReferenceCount := v;
     mNumDependencies := mNumDependencies j |}.
Definition set_mNumDependencies (v : Z) (j : Job) : Job :=
  {| mBarrier := mBarrier j; mReferenceCount := mReferenceCount j;
     mNumDependencies := v |}.

(** [AddRef]: [++mReferenceCount]. *)
Definition AddRef (j : Job) : Job :=
  set_mReferenceCount (Atomic.pre_increment (mReferenceCount j)) j.

(** [Release]: [if (--mReferenceCount == 0) mJobSystem->FreeJob(this)]. *)
Definition Release (j : Job) : Job * list Event :=
  let rc := Atomic.pre_decrement (mReferenceCount j) in
  (set_mReferenceCount rc j, if rc =? 0 then [EvFreeJob] else []).

(** [SetBarrier]: one compare-and-swap of the slot from 0 to the barrier. *)
Definition SetBarrier (inBarrier : Z) (j : Job) : Job * bool :=
  let '(ok, cell, _) := Atomic.compare_exchange_strong (mBarrier j) 0 inBarrier in
  (set_mBarrier cell j, ok).

Definition CanBeExecuted (j : Job) : bool := mNumDependencies j =? 0.
Definition IsDone (j : Job) : bool := mNumDependencies j =? cDoneState.

(** Modelled from the spec: the body of [Job::AddDependency], which the
    header only declares ([inline void AddDependency(int inCount)]); the
    spec says it atomically adds [n] to the counter. *)
Definition AddDependency (inCount : Z) (j : Job) : Job :=
  set_mNumDependencies (snd (Atomic.fetch_add (mNumDependencies j) inCount)) j.

(** Modelled from the spec: the body of [Job::RemoveDependency], which the
    header only declares ([inline bool RemoveDependency(int inCount)],
    "returns true whenever the dependency counter reaches zero"); the spec
    says it atomically subtracts [n] and tests that the new value is zero. *)
Definition RemoveDependency (inCount : Z) (j : Job) : Job * bool :=
  let new_value := snd (Atomic.fetch_sub (mNumDependencies j) inCount) in
  (set_mNumDependencies new_value j, new_value =? 0).

(** Modelled from the spec: the body of [Job::RemoveDependencyAndQueue],
    which the header only declares; the spec says that the decrement whose
    result is zero hands the job to the scheduler's enqueue operation. *)
Definition RemoveDependencyAndQueue (inCount : Z) (j : Job) : Job * list Event :=
  let '(j', runnable) := RemoveDependency inCount j in
  (j', if runnable then [EvQueueJob] else []).

(** ** Execute, cut at its atomic accesses *)

Inductive ExecPc : Type :=
  | AtClaim                        (* mNumDependencies.compare_exchange_strong(state = 0, cExecutingState) *)
  | AtJobFunction                  (* mJobFunction() *)
  | AtLoadBarrier                  (* barrier = mBarrier *)
  | AtFreezeBarrier (barrier : Z)  (* mBarrier.compare_exchange_strong(barrier, cBarrierDoneState) *)
  | AtMarkDone (barrier : Z)       (* mNumDependencies.compare_exchange_strong(state = cExecutingState, cDoneState) *)
  | AtNotify (barrier : Z)         (* if (barrier != 0) ...->OnJobFinished(this) *)
  | Returned (state : Z).          (* return state / return cDoneState *)

Definition exec_step (pc : ExecPc) (j : Job) : ExecPc * Job * list Event :=
  match pc with
  | AtClaim =>
      let '(ok, cell, state) :=
        Atomic.compare_exchange_strong (mNumDependencies j) 0 cExecutingState in
      if ok then (AtJobFunction, set_mNumDependencies cell j, [])
      else (Returned state, j, [])
  | AtJobFunction => (AtLoadBarrier, j, [EvJobFunction])
  | AtLoadBarrier => (AtFreezeBarrier (mBarrier j), j, [])
  | AtFreezeBarrier barrier =>
      let '(ok, cell, _) :=
        Atomic.compare_exchange_strong (mBarrier j) barrier cBarrierDoneState in
      if ok then (AtMarkDone barrier, set_mBarrier cell j, [])
      else (AtLoadBarrier, j, [])
  | AtMarkDone barrier =>
      let '(_, cell, _) :=
        Atomic.compare_exchange_strong (mNumDependencies j) cExecutingState cDoneState in
      (AtNotify barrier, set_mNumDependencies cell j, [])
  | AtNotify barrier =>
      (Returned cDoneState, j, if barrier =? 0 then [] else [EvOnJobFinished barrier])
  | Returned state => (Returned state, j, [])
  end.

(** A call of [Execute] that no other thread interferes with: the steps
    from [pc] on, until the call returns. *)
Fixpoint exec_run (fuel : nat) (pc : ExecPc) (j : Job) (evs : list Event)
  : option (Job * list Event * Z) :=
  match pc with
  | Returned state => Some (j, evs, state)
  | _ =>
      match fuel with
      | O => None
      | S fuel' =>
          let '(pc', j', evs') := exec_step pc j in
          exec_run fuel' pc' j' (evs ++ evs')
      end
  end.

Definition Execute (j : Job) : option (Job * list Event * Z) :=
  exec_run 6 AtClaim j [].

(** ** JobHandle *)

(** A handle is a [Ref<Job>]: a pointer that is null or points to a Job.
    [GetPtr] is that pointer; the contents of the Job it points to are
    passed in and out.  Dereferencing a null pointer is a fault. *)
Inductive Outcome (A : Type) : Type :=
  | Ok (a : A)
  | NullDereference.
Arguments Ok {A} a.
Arguments NullDereference {A}.

Module JobHandle.

Definition t : Type := option Job.

Definition GetPtr (h : t) : option Job := h.

(** [GetPtr()->f(...)] *)
Definition arrow {A : Type} (p : option Job) (f : Job -> A) : Outcome A :=
  match p with
  | Some j => Ok (f j)
  | None => NullDereference
  end.

(** [return GetPtr() != nullptr] *)
Definition IsValid (h : t) : Outcome bool :=
  Ok (bool_decide (GetPtr h <> None)).

(** [return GetPtr() != nullptr && GetPtr()->IsDone()]: the right operand
    of [&&] is evaluated only when the left one is true. *)
Definition IsDone (h : t) : Outcome bool :=
  if bool_decide (GetPtr h <> None) then arrow (GetPtr h) IsDone
  else Ok false.

(** [GetPtr()->AddDependency(inCount)] *)
Definition AddDependency (inCount : Z) (h : t) : Outcome t :=
  arrow (GetPtr h) (fun j => Some (AddDependency inCount j)).

(** [GetPtr()->RemoveDependencyAndQueue(inCount)] *)
Definition RemoveDependency (inCount : Z) (h : t) : Outcome (t * list Event) :=
  arrow (GetPtr h)
    (fun j => let '(j', evs) := RemoveDependencyAndQueue inCount j in (Some j', evs)).

End JobHandle.

(** ** The system: one Job, the calls of Execute in flight, the log *)

Record Sys : Type := mkSys {
  job : Job;
  calls : list ExecPc;
  log : list Event
}.

Inductive Label : Type :=
  | LCallExecute                            (* some thread enters Execute *)
  | LExecuteStep (i : nat)                  (* call number i takes its next step *)
  | LSetBarrier (inBarrier : Z)
  | LAddRef
  | LRelease
  | LAddDependency (inCount : Z)
  | LRemoveDependencyAndQueue (inCount : Z).

Definition step (l : Label) (s : Sys) : Sys :=
  match l with
  | LCallExecute => mkSys (job s) (calls s ++ [AtClaim]) (log s)
  | LExecuteStep i =>
      match calls s !! i with
      | Some pc =>
          let '(pc', j', evs) := exec_step pc (job s) in
          mkSys j' (<[i := pc']> (calls s)) (log s ++ evs)
      | None => s
      end
  | LSetBarrier b => mkSys (fst (SetBarrier b (job s))) (calls s) (log s)
  | LAddRef => mkSys (AddRef (job s)) (calls s) (log s)
  | LRelease =>
      let '(j', evs) := Release (job s) in mkSys j' (calls s) (log s ++ evs)
  | LAddDependency n => mkSys (AddDependency n (job s)) (calls s) (log s)
  | LRemoveDependencyAndQueue n =>
      let '(j', evs) := RemoveDependencyAndQueue n (job s) in
      mkSys j' (calls s) (log s ++ evs)
  end.

Definition run (ls : list Label) (s : Sys) : Sys := foldl (fun s l => step l s) s ls.

Definition init (inNumDependencies : Z) : Sys :=
  mkSys (newJob inNumDependencies) [] [].

(** The job has been claimed by a call of Execute (or its counter holds a
    value that reads as such). *)
Definition started (j : Job) : bool :=
  (mNumDependencies j =? cExecutingState) || (mNumDependencies j =? cDoneState).

(** The caller's side of the contract, as the header documents it: once the
    counter has reached zero "it is no longer valid to call the
    AddDependency/RemoveDependency functions"; and a barrier is a pointer to
    an object, never the all-ones value. *)
Definition label_ok (s : Sys) (l : Label) : bool :=
  match l with
  | LAddDependency _ | LRemoveDependencyAndQueue _ =>
      negb (mNumDependencies (job s) =? 0) && negb (started (job s))
  | LSetBarrier b => negb (b =? cBarrierDoneState)
  | _ => true
  end.

Fixpoint legal (s : Sys) (ls : list Label) : bool :=
  match ls with
  | [] => true
  | l :: ls' => label_ok s l && legal (step l s) ls'
  end.

Fixpoint count_event (f : Event -> bool) (evs : list Event) : nat :=
  match evs with
  | [] => O
  | e :: evs' => ((if f e then 1 else 0) + count_event f evs')%nat
  end.

Fixpoint count_pc (f : ExecPc -> bool) (pcs : list ExecPc) : nat :=
  match pcs with
  | [] => O
  | pc :: pcs' => ((if f pc then 1 else 0) + count_pc f pcs')%nat
  end.

Definition is_JobFunction (e : Event) : bool :=
  match e with EvJobFunction => true | _ => false end.
Definition is_OnJobFinished (e : Event) : bool :=
  match e with EvOnJobFinished _ => true | _ => false end.
Definition is_FreeJob (e : Event) : bool :=
  match e with EvFreeJob => true | _ => false end.
Definition is_QueueJob (e : Event) : bool :=
  match e with EvQueueJob => true | _ => false end.

(** A call that has claimed the job and has not yet marked it done. *)
Definition executing (pc : ExecPc) : bool :=
  match pc with
  | AtJobFunction | AtLoadBarrier | AtFreezeBarrier _ | AtMarkDone _ => true
  | _ => false
  end.

(** A call that has marked the job done and has yet to notify the barrier. *)
Definition notifying (pc : ExecPc) : bool :=
  match pc with AtNotify _ => true | _ => false end.

Definition payloads (s : Sys) : nat := count_event is_JobFunction (log s).
Definition notifications (s : Sys) : nat := count_event is_OnJobFinished (log s).
Definition frees (s : Sys) : nat := count_event is_FreeJob (log s).
Definition queued (s : Sys) : nat := count_event is_QueueJob (log s).

(** ** The invariant of the protocol *)

(** What a call at a given program point knows about the payload count [p]
    and the barrier slot [b]. *)
Definition pc_ok (p : nat) (b : Z) (pc : ExecPc) : Prop :=
  match pc with
  | AtJobFunction => p = O /\ b <> cBarrierDoneState
  | AtLoadBarrier | AtFreezeBarrier _ => p = 1%nat /\ b <> cBarrierDoneState
  | AtMarkDone x => p = 1%nat /\ b = cBarrierDoneState /\ x <> cBarrierDoneState
  | AtNotify x => x <> cBarrierDoneState
  | AtClaim | Returned _ => True
  end.

Definition ev_ok (e : Event) : Prop :=
  match e with
  | EvOnJobFinished x => x <> 0 /\ x <> cBarrierDoneState
  | _ => True
  end.

(** The three phases: nobody has claimed the job; exactly one call is
    executing it; it is done. *)
Definition phase_idle (s : Sys) : Prop :=
  count_pc executing (calls s) = O /\ count_pc notifying (calls s) = O /\
  payloads s = O /\ notifications s = O /\
  mBarrier (job s) <> cBarrierDoneState.

Definition phase_executing (s : Sys) : Prop :=
  count_pc executing (calls s) = 1%nat /\ count_pc notifying (calls s) = O /\
  (payloads s <= 1)%nat /\ notifications s = O /\
  mNumDependencies (job s) = cExecutingState.

Definition phase_done (s : Sys) : Prop :=
  count_pc executing (calls s) = O /\
  (count_pc notifying (calls s) + notifications s <= 1)%nat /\
  payloads s = 1%nat /\
  mNumDependencies (job s) = cDoneState /\
  mBarrier (job s) = cBarrierDoneState.

Definition Inv (s : Sys) : Prop :=
  Forall (pc_ok (payloads s) (mBarrier (job s))) (calls s) /\
  Forall ev_ok (log s) /\
  (phase_idle s \/ phase_executing s \/ phase_done s).

Lemma count_event_app f l1 l2 :
  count_event f (l1 ++ l2) = (count_event f l1 + count_event f l2)%nat.
Proof. induction l1 as [|e l1 IH]; simpl; [reflexivity | rewrite IH; lia]. Qed.

Lemma count_pc_app f l1 l2 :
  count_pc f (l1 ++ l2) = (count_pc f l1 + count_pc f l2)%nat.
Proof. induction l1 as [|e l1 IH]; simpl; [reflexivity | rewrite IH; lia]. Qed.

Lemma calls_split (ts : list ExecPc) i pc :
  ts !! i = Some pc ->
  exists l1 l2, ts = l1 ++ pc :: l2 /\ forall pc', <[i := pc']> ts = l1 ++ pc' :: l2.
Proof.
  intros H. exists (take i ts), (drop (S i) ts). split.
  - symmetry. by apply take_drop_middle.
  - intros pc'. apply insert_take_drop. by eapply lookup_lt_Some.
Qed.

(** Calls that are not executing the job do not depend on [p] and [b]. *)
Lemma pc_ok_others p b p' b' l :
  count_pc executing l = O -> Forall (pc_ok p b) l -> Forall (pc_ok p' b') l.
Proof.
  induction l as [|pc l IH]; intros Hc H; [constructor|].
  apply Forall_cons in H as [H1 H2]. simpl in Hc.
  apply Forall_cons. split.
  - destruct pc; simpl in *; try done; lia.
  - apply IH; [|done]. destruct (executing pc); lia.
Qed.

(** Setting a barrier keeps what every call knows. *)
Lemma pc_ok_SetBarrier p b x pc :
  x <> cBarrierDoneState -> pc_ok p b pc ->
  pc_ok p (if b =? 0 then x else b) pc.
Proof.
  intros Hx. destruct (Z.eqb_spec b 0) as [->|Hb]; [|done].
  destruct pc; simpl; try done; intros H; try (split; [apply H | done]).
  destruct H as (_ & H & _). by compute in H.
Qed.

Lemma sentinels_distinct :
  cExecutingState <> 0 /\ cDoneState <> 0 /\ cExecutingState <> cDoneState.
Proof. by compute. Qed.

Lemma label_ok_counter (s : Sys) :
  negb (mNumDependencies (job s) =? 0) && negb (started (job s)) = true ->
  mNumDependencies (job s) <> 0 /\
  mNumDependencies (job s) <> cExecutingState /\
  mNumDependencies (job s) <> cDoneState.
Proof.
  unfold started. intros H.
  apply andb_true_iff in H as [H1 H2]. apply negb_true_iff in H1, H2.
  apply orb_false_iff in H2 as [H2 H3].
  apply Z.eqb_neq in H1, H2, H3. done.
Qed.

Lemma Inv_step s l : Inv s -> label_ok s l = true -> Inv (step l s).
Proof.
  destruct s as [[b rc c] ts lg].
  unfold Inv, phase_idle, phase_executing, phase_done, payloads, notifications.
  simpl. intros (Hpcs & Hevs & Hph) Hok.
  destruct l; simpl in *.
  - rewrite !count_pc_app. simpl. rewrite !Nat.add_0_r.
    split; [|done]. apply Forall_app. split; [done|]. by repeat constructor.
  - destruct (ts !! i) as [pc|] eqn:Hi; [|done].
    destruct (calls_split _ _ _ Hi) as (l1 & l2 & -> & Hins). clear Hi.
    rewrite !count_pc_app in Hph. simpl in Hph.
    apply Forall_app in Hpcs as [Hl1 Hpcs]. apply Forall_cons in Hpcs as [Hpc Hl2].
    pose proof sentinels_distinct as (Hs1 & Hs2 & Hs3).
    destruct pc; unfold exec_step, Atomic.compare_exchange_strong;
      repeat match goal with |- context [ ?x =? ?y ] => destruct (Z.eqb_spec x y) end;
      simpl; rewrite Hins, ?count_pc_app, ?count_event_app, ?Forall_app, ?Forall_cons;
      simpl in *; subst; rewrite ?Nat.add_0_r.
    all: try (split_and!; try done; try (eapply pc_ok_others; [|eassumption]; lia); try lia).
    all: try (repeat constructor; lia).
  - apply negb_true_iff, Z.eqb_neq in Hok.
    unfold SetBarrier, Atomic.compare_exchange_strong. simpl.
    assert (Hb : mBarrier (set_mBarrier (if b =? 0 then inBarrier else b)
      {| mBarrier := b; mReferenceCount := rc; mNumDependencies := c |}) = (if b =? 0 then inBarrier else b)) by done.
    destruct (Z.eqb_spec b 0) as [->|Hb0]; simpl.
    + split_and!; [|done|].
      * eapply Forall_impl; [exact Hpcs|]. intros pc. apply (pc_ok_SetBarrier _ 0 inBarrier pc Hok).
      * assert (0 <> cBarrierDoneState) by done. lia.
    + done.
  - done.
  - unfold Atomic.pre_decrement. destruct (_ =? 0); rewrite ?count_event_app, ?Forall_app; simpl;
      rewrite ?Nat.add_0_r, ?app_nil_r; try done.
    split_and!; try done. by repeat constructor.
  - apply (label_ok_counter (mkSys (mkJobFields b rc c) ts lg)) in Hok. simpl in Hok.
    split_and!; try done. lia.
  - apply (label_ok_counter (mkSys (mkJobFields b rc c) ts lg)) in Hok. simpl in Hok.
    destruct (_ =? 0); rewrite ?count_event_app, ?Forall_app; simpl;
      rewrite ?Nat.add_0_r, ?app_nil_r.
    + split_and!; try done; [by repeat constructor | lia].
    + split_and!; try done. lia.
Qed.

Lemma Inv_init n : Inv (init n).
Proof.
  unfold Inv, phase_idle. simpl. split_and!; try done. by left.
Qed.

Lemma run_cons l ls s : run (l :: ls) s = run ls (step l s).
Proof. reflexivity. Qed.

Lemma run_snoc ls l s : run (ls ++ [l]) s = step l (run ls s).
Proof. unfold run. by rewrite foldl_app. Qed.

Lemma Inv_run ls : forall s, Inv s -> legal s ls = true -> Inv (run ls s).
Proof.
  induction ls as [|l ls IH]; intros s HI Hl; [done|].
  simpl in Hl. apply andb_true_iff in Hl as [H1 H2].
  rewrite run_cons. apply IH; [by apply Inv_step | done].
Qed.

Lemma Inv_reachable n ls : legal (init n) ls = true -> Inv (run ls (init n)).
Proof. apply Inv_run, Inv_init. Qed.

Lemma count_pc_lookup f (ts : list ExecPc) i pc :
  ts !! i = Some pc -> f pc = true -> (1 <= count_pc f ts)%nat.
Proof.
  intros H Hf. destruct (calls_split _ _ _ H) as (l1 & l2 & -> & _).
  rewrite count_pc_app. simpl. rewrite Hf. lia.
Qed.

Lemma count_event_In f evs e :
  In e evs -> f e = true -> (1 <= count_event f evs)%nat.
Proof.
  induction evs as [|e' evs IH]; simpl; [done|].
  intros [->|H] Hf; [rewrite Hf; lia | specialize (IH H Hf); lia].
Qed.

Lemma count_event_pos f evs :
  (1 <= count_event f evs)%nat -> exists e, In e evs /\ f e = true.
Proof.
  induction evs as [|e' evs IH]; simpl; [lia|].
  destruct (f e') eqn:E; [exists e'; by split; [left|] |].
  intros H. destruct IH as (e & H1 & H2); [lia|]. exists e. split; [by right | done].
Qed.

Lemma Execute_runnable j :
  mNumDependencies j = 0 ->
  Execute j =
  Some (set_mNumDependencies cDoneState (set_mBarrier cBarrierDoneState j),
        EvJobFunction :: (if mBarrier j =? 0 then [] else [EvOnJobFinished (mBarrier j)]),
        cDoneState).
Proof.
  intros H. destruct j as [b rc c]. simpl in H. subst c.
  unfold Execute, exec_run, exec_step, Atomic.compare_exchange_strong. simpl.
  rewrite Z.eqb_refl. reflexivity.
Qed.

Lemma Execute_not_runnable j :
  mNumDependencies j <> 0 -> Execute j = Some (j, [], mNumDependencies j).
Proof.
  intros H. unfold Execute. simpl. unfold Atomic.compare_exchange_strong.
  apply Z.eqb_neq in H. by rewrite H.
Qed.

Lemma started_counter j :
  started j = true <->
  mNumDependencies j = cExecutingState \/ mNumDependencies j = cDoneState.
Proof. unfold started. rewrite orb_true_iff, !Z.eqb_eq. done. Qed.

(** A call of Execute that nobody interferes with returns, whatever the Job. *)
Lemma Execute_total j : exists r, Execute j = Some r.
Proof.
  destruct (Z.eq_dec (mNumDependencies j) 0) as [H|H].
  - rewrite (Execute_runnable j H). by eexists.
  - rewrite (Execute_not_runnable j H). by eexists.
Qed.

(** ** Execute runs the payload at most once *)

(** What one step of a call does to the claim: the payload is run only from
    [AtJobFunction], which is entered only by the compare-and-swap of the
    counter from 0 to [cExecutingState]. *)
Lemma exec_step_claim pc j pc' j' evs :
  exec_step pc j = (pc', j', evs) ->
  (In EvJobFunction evs -> pc = AtJobFunction) /\
  (pc' = AtJobFunction ->
     pc = AtClaim /\ mNumDependencies j = 0 /\
     mNumDependencies j' = cExecutingState).
Proof.
  destruct pc; unfold exec_step, Atomic.compare_exchange_strong;
    repeat match goal with |- context [ ?x =? ?y ] => destruct (Z.eqb_spec x y) end;
    intros [= <- <- <-]; simpl; split; try done; intros H;
    repeat match goal with H : _ \/ _ |- _ => destruct H end; done.
Qed.

(** C1: in every run in which any number of calls of Execute race with each
    other and with the other operations of the Job (AddDependency and
    RemoveDependency within their documented contract), the payload
    function is invoked at most once; it is invoked only by a call whose
    compare-and-swap took the counter from 0 to cExecutingState; and once a
    call holds the claim or the payload has run, the counter is
    cExecutingState or cDoneState, never 0, so that every call that
    reaches its compare-and-swap afterwards returns the counter it saw
    and changes nothing. *)
Theorem Execute_runs_payload_at_most_once (n : Z) (ls : list Label) :
  legal (init n) ls = true ->
  let s := run ls (init n) in
  (payloads s <= 1)%nat /\
  (forall pc j pc' j' evs,
     exec_step pc j = (pc', j', evs) ->
     (In EvJobFunction evs -> pc = AtJobFunction) /\
     (pc' = AtJobFunction ->
        pc = AtClaim /\ mNumDependencies j = 0 /\
        mNumDependencies j' = cExecutingState)) /\
  ((1 <= payloads s + count_pc executing (calls s))%nat ->
     started (job s) = true /\ mNumDependencies (job s) <> 0 /\
     (forall i, calls s !! i = Some AtClaim ->
        step (LExecuteStep i) s =
        mkSys (job s) (<[i := Returned (mNumDependencies (job s))]> (calls s)) (log s)) /\
     Execute (job s) = Some (job s, [], mNumDependencies (job s))).
Proof.
  intros Hl s. pose proof (Inv_reachable n ls Hl) as (_ & _ & Hph).
  fold s in Hph. pose proof sentinels_distinct as (Hs1 & Hs2 & Hs3).
  split; [|split].
  - unfold phase_idle, phase_executing, phase_done in Hph. lia.
  - apply exec_step_claim.
  - intros Hc.
    assert (Hst : mNumDependencies (job s) = cExecutingState \/
                  mNumDependencies (job s) = cDoneState).
    { unfold phase_idle, phase_executing, phase_done in Hph.
      destruct Hph as [H|[H|H]]; [lia | left; apply H | right; apply H]. }
    assert (Hnz : mNumDependencies (job s) <> 0) by (destruct Hst as [-> | ->]; done).
    split_and!; [by apply started_counter | done | | by apply Execute_not_runnable].
    intros i Hi. simpl. rewrite Hi. unfold exec_step, Atomic.compare_exchange_strong.
    apply Z.eqb_neq in Hnz. rewrite Hnz. by rewrite app_nil_r.
Qed.

(** One call runs to completion while a second one races with it. *)
Definition two_racing_calls : list Label :=
  [LCallExecute; LCallExecute; LExecuteStep 0; LExecuteStep 1; LExecuteStep 0;
   LSetBarrier 4096; LExecuteStep 0; LExecuteStep 0; LExecuteStep 0;
   LExecuteStep 0; LCallExecute; LExecuteStep 2].

Lemma Execute_runs_payload_at_most_once_witness :
  legal (init 0) two_racing_calls = true /\
  (payloads (run two_racing_calls (init 0)) <= 1)%nat.
Proof.
  split; [reflexivity|].
  apply (Execute_runs_payload_at_most_once 0 two_racing_calls). reflexivity.
Defined.

(** ** The order of the steps of a successful Execute *)

(** In the log, every callback to a barrier comes after the payload. *)
Definition callbacks_follow_payload (lg : list Event) : Prop :=
  forall l1 x l2, lg = l1 ++ EvOnJobFinished x :: l2 -> In EvJobFunction l1.

Lemma callbacks_follow_payload_snoc lg e :
  callbacks_follow_payload lg ->
  (forall x, e = EvOnJobFinished x -> In EvJobFunction lg) ->
  callbacks_follow_payload (lg ++ [e]).
Proof.
  intros Hlg He l1 x l2. destruct l2 as [|e2 l2 _] using rev_ind; intros Heq.
  - apply app_inj_tail in Heq as [-> ->]. by apply (He x).
  - change (l1 ++ EvOnJobFinished x :: l2 ++ [e2])
      with (l1 ++ (EvOnJobFinished x :: l2) ++ [e2]) in Heq.
    rewrite app_assoc in Heq. apply app_inj_tail in Heq as [-> _].
    by apply (Hlg l1 x l2).
Qed.

Lemma payloads_In s : (1 <= payloads s)%nat -> In EvJobFunction (log s).
Proof.
  intros H. apply count_event_pos in H as (e & H1 & H2). by destruct e.
Qed.

(** What a step appends to the log; a callback is appended only in the
    done phase. *)
Lemma step_log s l :
  Inv s ->
  log (step l s) = log s \/
  exists e, log (step l s) = log s ++ [e] /\
            (forall x, e = EvOnJobFinished x -> (1 <= payloads s)%nat).
Proof.
  intros (Hpcs & _ & Hph). destruct l; simpl; try by left.
  - destruct (calls s !! i) as [pc|] eqn:Hi; [|by left].
    destruct pc; unfold exec_step, Atomic.compare_exchange_strong;
      repeat match goal with |- context [ ?x =? ?y ] => destruct (Z.eqb_spec x y) end;
      simpl; rewrite ?app_nil_r; try by left.
    + right. eexists. split; [done|]. intros x [=].
    + right. eexists. split; [done|]. intros x _.
      pose proof (count_pc_lookup notifying _ _ _ Hi eq_refl) as Hn.
      unfold phase_idle, phase_executing, phase_done in Hph. lia.
  - unfold Release. destruct (_ =? 0); simpl; rewrite ?app_nil_r; [|by left].
    right. eexists. split; [done|]. intros x [=].
  - unfold RemoveDependencyAndQueue, RemoveDependency. destruct (_ =? 0); simpl;
      rewrite ?app_nil_r; [|by left].
    right. eexists. split; [done|]. intros x [=].
Qed.

Lemma callbacks_follow_payload_run ls :
  forall s, Inv s -> callbacks_follow_payload (log s) -> legal s ls = true ->
  callbacks_follow_payload (log (run ls s)).
Proof.
  induction ls as [|l ls IH]; intros s HI Ho Hl; [done|].
  simpl in Hl. apply andb_true_iff in Hl as [H1 H2]. rewrite run_cons.
  apply IH; [by apply Inv_step | | done].
  destruct (step_log s l HI) as [-> | (e & -> & He)]; [done|].
  apply callbacks_follow_payload_snoc; [done|].
  intros x Hx. apply payloads_In. by apply (He x).
Qed.

(** What a call at each program point of a successful Execute finds. *)
Definition at_pc (s : Sys) (pc : ExecPc) : Prop :=
  match pc with
  | AtJobFunction =>
      payloads s = O /\ mBarrier (job s) <> cBarrierDoneState /\
      mNumDependencies (job s) = cExecutingState
  | AtLoadBarrier | AtFreezeBarrier _ =>
      payloads s = 1%nat /\ mBarrier (job s) <> cBarrierDoneState /\
      mNumDependencies (job s) = cExecutingState
  | AtMarkDone x =>
      payloads s = 1%nat /\ mBarrier (job s) = cBarrierDoneState /\
      mNumDependencies (job s) = cExecutingState /\ x <> cBarrierDoneState
  | AtNotify x =>
      payloads s = 1%nat /\ mBarrier (job s) = cBarrierDoneState /\
      mNumDependencies (job s) = cDoneState /\ x <> cBarrierDoneState
  | AtClaim | Returned _ => True
  end.

(** C2: in every run (calls of Execute racing with each other and with the
    other operations, AddDependency and RemoveDependency within their
    contract, barriers being real pointers), a call that has claimed the
    job goes through its steps in this order: when it is about to replace
    the barrier slot the payload has returned, the slot is not yet
    cBarrierDoneState and the counter is still cExecutingState; when it is
    about to mark the job done the slot already holds cBarrierDoneState
    and the counter is still cExecutingState; when it is about to notify
    the barrier the counter already is cDoneState.  OnJobFinished is
    invoked only on a captured slot value that is neither 0 nor
    cBarrierDoneState, only when the counter is cDoneState, after the
    payload in the log, and at most once. *)
Theorem Execute_steps_in_order (n : Z) (ls : list Label) :
  legal (init n) ls = true ->
  let s := run ls (init n) in
  (forall i pc, calls s !! i = Some pc -> at_pc s pc) /\
  (forall x, In (EvOnJobFinished x) (log s) ->
     x <> 0 /\ x <> cBarrierDoneState /\
     mNumDependencies (job s) = cDoneState /\
     mBarrier (job s) = cBarrierDoneState) /\
  callbacks_follow_payload (log s) /\
  (notifications s <= 1)%nat /\
  (forall x j, snd (exec_step (AtNotify x) j) = [EvOnJobFinished x] \/
               (x = 0 /\ snd (exec_step (AtNotify x) j) = [])).
Proof.
  intros Hl s. pose proof (Inv_reachable n ls Hl) as (Hpcs & Hevs & Hph).
  fold s in Hpcs, Hevs, Hph.
  unfold phase_idle, phase_executing, phase_done in Hph.
  split_and!.
  - intros i pc Hi. pose proof (Forall_lookup_1 _ _ _ _ Hpcs Hi) as Hpc.
    destruct pc; simpl in *; try done;
      try (pose proof (count_pc_lookup executing _ _ _ Hi eq_refl));
      try (pose proof (count_pc_lookup notifying _ _ _ Hi eq_refl));
      split_and!; try tauto; lia.
  - intros x Hx.
    pose proof (count_event_In is_OnJobFinished _ _ Hx eq_refl) as Hc.
    fold (notifications s) in Hc.
    apply list_elem_of_In in Hx.
    pose proof (proj1 (Forall_forall _ _) Hevs _ Hx) as He. simpl in He.
    split_and!; try tauto; lia.
  - apply (callbacks_follow_payload_run ls (init n)); [apply Inv_init | | done].
    intros l1 x l2 H. by destruct l1.
  - lia.
  - intros x j. simpl. destruct (Z.eqb_spec x 0); [right | left]; done.
Qed.

(** A barrier is set while the payload runs; the call then completes. *)
Definition barrier_set_during_payload : list Label :=
  [LCallExecute; LExecuteStep 0; LSetBarrier 4096; LExecuteStep 0;
   LExecuteStep 0; LExecuteStep 0; LExecuteStep 0; LExecuteStep 0].

Lemma Execute_steps_in_order_witness :
  legal (init 0) barrier_set_during_payload = true /\
  callbacks_follow_payload (log (run barrier_set_during_payload (init 0))).
Proof.
  split; [reflexivity|].
  apply (Execute_steps_in_order 0 barrier_set_during_payload). reflexivity.
Defined.

(** ** Execute on a job that is not runnable *)

(** C8: when Execute is called on a Job whose dependency counter is not
    exactly 0 (a count above 0, cExecutingState or cDoneState), it returns
    the counter value it observed and changes nothing: counter, barrier
    slot and reference count are unchanged and no call leaves the Job (the
    payload is not invoked); in a concurrent run the same holds of the
    step in which a call makes its compare-and-swap. *)
Theorem Execute_not_runnable_changes_nothing (j : Job) :
  mNumDependencies j <> 0 ->
  Execute j = Some (j, [], mNumDependencies j) /\
  exec_step AtClaim j = (Returned (mNumDependencies j), j, []) /\
  (forall ts lg i, ts !! i = Some AtClaim ->
     step (LExecuteStep i) (mkSys j ts lg) =
     mkSys j (<[i := Returned (mNumDependencies j)]> ts) lg).
Proof.
  intros H. split; [by apply Execute_not_runnable|].
  assert (He : exec_step AtClaim j = (Returned (mNumDependencies j), j, [])).
  { unfold exec_step, Atomic.compare_exchange_strong.
    apply Z.eqb_neq in H. by rewrite H. }
  split; [done|].
  intros ts lg i Hi. simpl. rewrite Hi, He. by rewrite app_nil_r.
Qed.

Lemma Execute_not_runnable_changes_nothing_witness :
  mNumDependencies (mkJobFields 4096 2 cDoneState) <> 0 /\
  Execute (mkJobFields 4096 2 cDoneState) =
  Some (mkJobFields 4096 2 cDoneState, [], cDoneState).
Proof.
  split; [done|].
  apply (Execute_not_runnable_changes_nothing (mkJobFields 4096 2 cDoneState)). done.
Defined.

(** ** SetBarrier *)

Lemma set_mBarrier_same j : set_mBarrier (mBarrier j) j = j.
Proof. by destruct j. Qed.

(** The barrier slot never leaves [cBarrierDoneState], whatever the step. *)
Lemma barrier_done_step l s :
  mBarrier (job s) = cBarrierDoneState ->
  mBarrier (job (step l s)) = cBarrierDoneState.
Proof.
  intros H. destruct l; simpl; try done.
  - destruct (calls s !! i) as [pc|]; [|done].
    destruct pc; unfold exec_step, Atomic.compare_exchange_strong;
      repeat match goal with |- context [ ?x =? ?y ] => destruct (Z.eqb_spec x y) end;
      done.
  - unfold SetBarrier, Atomic.compare_exchange_strong. rewrite H. done.
Qed.

Lemma barrier_done_run ls : forall s,
  mBarrier (job s) = cBarrierDoneState ->
  mBarrier (job (run ls s)) = cBarrierDoneState.
Proof.
  induction ls as [|l ls IH]; intros s H; [done|].
  rewrite run_cons. by apply IH, barrier_done_step.
Qed.

(** C4: SetBarrier(b) returns true if and only if the barrier slot was 0 at
    its compare-and-swap, and then the slot holds b; otherwise it returns
    false and leaves the Job unchanged, in particular when the slot is
    cBarrierDoneState; and once the slot holds cBarrierDoneState no
    sequence of operations by any thread changes it. *)
Theorem SetBarrier_succeeds_iff_slot_empty (b : Z) (j : Job) :
  (snd (SetBarrier b j) = true <-> mBarrier j = 0) /\
  (mBarrier j = 0 -> fst (SetBarrier b j) = set_mBarrier b j) /\
  (mBarrier j <> 0 -> SetBarrier b j = (j, false)) /\
  (mBarrier j = cBarrierDoneState -> SetBarrier b j = (j, false)) /\
  (forall ls s, mBarrier (job s) = cBarrierDoneState ->
     mBarrier (job (run ls s)) = cBarrierDoneState).
Proof.
  assert (Hne : mBarrier j <> 0 -> SetBarrier b j = (j, false)).
  { intros H. unfold SetBarrier, Atomic.compare_exchange_strong.
    apply Z.eqb_neq in H. rewrite H. by rewrite set_mBarrier_same. }
  split_and!.
  - unfold SetBarrier, Atomic.compare_exchange_strong.
    destruct (Z.eqb_spec (mBarrier j) 0); simpl; split; done.
  - intros H. unfold SetBarrier, Atomic.compare_exchange_strong. by rewrite H.
  - done.
  - intros H. apply Hne. by rewrite H.
  - intros ls s. apply barrier_done_run.
Qed.

Lemma SetBarrier_succeeds_iff_slot_empty_witness :
  mBarrier (mkJobFields cBarrierDoneState 1 cDoneState) = cBarrierDoneState /\
  SetBarrier 4096 (mkJobFields cBarrierDoneState 1 cDoneState) =
  (mkJobFields cBarrierDoneState 1 cDoneState, false).
Proof.
  split; [reflexivity|].
  apply (SetBarrier_succeeds_iff_slot_empty 4096
           (mkJobFields cBarrierDoneState 1 cDoneState)). reflexivity.
Defined.

(** ** The transitions of the dependency counter *)

Definition is_sentinel (c : Z) : bool :=
  (c =? cExecutingState) || (c =? cDoneState).

(** The moves of the counter that the data model lists, in its words:
    a count N > 0 goes down by some k <= N, exactly 0 goes to EXECUTING,
    EXECUTING goes to DONE; a step that leaves the counter alone is no move. *)
Definition listed_transition (c c' : Z) : bool :=
  (c' =? c)
  || ((0 <? c) && negb (is_sentinel c) && (0 <=? c') && (c' <? c))
  || ((c =? 0) && (c' =? cExecutingState))
  || ((c =? cExecutingState) && (c' =? cDoneState)).

(** What a step of a call of Execute does to the counter, the reference
    count and the log. *)
Lemma exec_step_effects pc j :
  let j' := snd (fst (exec_step pc j)) in
  let evs := snd (exec_step pc j) in
  count_event is_QueueJob evs = O /\ count_event is_FreeJob evs = O /\
  mReferenceCount j' = mReferenceCount j /\
  (mNumDependencies j' = mNumDependencies j \/
   (mNumDependencies j = 0 /\ mNumDependencies j' = cExecutingState) \/
   (mNumDependencies j = cExecutingState /\ mNumDependencies j' = cDoneState)).
Proof.
  destruct pc; unfold exec_step, Atomic.compare_exchange_strong;
    repeat match goal with |- context [ ?x =? ?y ] => destruct (Z.eqb_spec x y) end;
    simpl; split_and!; try done; try by left.
  - right; left; done.
  - right; right; done.
Qed.

Lemma step_ExecuteStep i s pc :
  calls s !! i = Some pc ->
  step (LExecuteStep i) s =
  mkSys (snd (fst (exec_step pc (job s))))
        (<[i := fst (fst (exec_step pc (job s)))]> (calls s))
        (log s ++ snd (exec_step pc (job s))).
Proof. intros H. simpl. rewrite H. by destruct (exec_step pc (job s)) as [[? ?] ?]. Qed.

(** How a step moves the counter. *)
Lemma counter_moves (s : Sys) (l : Label) :
  let c := mNumDependencies (job s) in
  let c' := mNumDependencies (job (step l s)) in
  c' = c \/
  (exists i, l = LExecuteStep i /\ c = 0 /\ c' = cExecutingState) \/
  (exists i, l = LExecuteStep i /\ c = cExecutingState /\ c' = cDoneState) \/
  (exists k, l = LRemoveDependencyAndQueue k /\ c' = Atomic.wrap32 (c - k)) \/
  (exists k, l = LAddDependency k /\ c' = Atomic.wrap32 (c + k)).
Proof.
  simpl. destruct l; try (by left).
  - destruct (calls s !! i) as [pc|] eqn:Hi; [|left; simpl; by rewrite Hi].
    rewrite (step_ExecuteStep i s pc Hi). simpl.
    destruct (exec_step_effects pc (job s)) as (_ & _ & _ & [H|[H|H]]);
      [by left | right; left; by exists i | right; right; left; by exists i].
  - left. simpl. unfold SetBarrier, Atomic.compare_exchange_strong.
    by destruct (mBarrier (job s) =? 0).
  - right; right; right; right. by exists inCount.
  - right; right; right; left. by exists inCount.
Qed.

(** A started job stays started under every step but the two unguarded ones. *)
Lemma started_kept (s : Sys) (l : Label) :
  started (job s) = true ->
  (forall k, l <> LAddDependency k) ->
  (forall k, l <> LRemoveDependencyAndQueue k) ->
  started (job (step l s)) = true.
Proof.
  intros Hs Ha Hr. apply started_counter in Hs. apply started_counter.
  pose proof sentinels_distinct as (Hs1 & Hs2 & Hs3).
  destruct (counter_moves s l)
    as [H|[(i & _ & H)|[(i & _ & H)|[(k & H & _)|(k & H & _)]]]];
    [lia | lia | lia | by destruct (Hr k) | by destruct (Ha k)].
Qed.

(** A finished job, obtained by one call of Execute on a job without
    dependencies. *)
Definition one_call_to_completion : list Label :=
  [LCallExecute; LExecuteStep 0; LExecuteStep 0; LExecuteStep 0;
   LExecuteStep 0; LExecuteStep 0; LExecuteStep 0].

(** C3, as stated, fails: AddDependency moves a count up, which is none of
    the listed moves, and it does not look at the sentinels, so that on a
    finished job it turns cDoneState into a numeric count. *)
Lemma counter_transitions_counterexample :
  listed_transition (mNumDependencies (newJob 1))
                    (mNumDependencies (AddDependency 1 (newJob 1))) = false /\
  IsDone (job (run one_call_to_completion (init 0))) = true /\
  mNumDependencies (AddDependency 1 (job (run one_call_to_completion (init 0))))
    = 0xd0d0d0d1 /\
  is_sentinel (mNumDependencies
                 (AddDependency 1 (job (run one_call_to_completion (init 0)))))
    = false.
Proof. by vm_compute. Qed.

(** C3, amended: a step changes the counter only in these ways: a step of
    Execute takes exactly 0 to cExecutingState or cExecutingState to
    cDoneState; RemoveDependency(k) takes N to N - k modulo 2^32, which is
    N - k when k <= N; AddDependency(k) takes N to N + k modulo 2^32.
    No step of Execute, SetBarrier, AddRef or Release moves a counter that
    is cExecutingState or cDoneState to anything but cDoneState; for
    AddDependency and RemoveDependency, which do not look at the
    sentinels, this rests on the caller's contract not to call them once
    the job has started. *)
Theorem counter_transitions (s : Sys) (l : Label) :
  let c := mNumDependencies (job s) in
  let c' := mNumDependencies (job (step l s)) in
  (c' = c \/
   (exists i, l = LExecuteStep i /\ c = 0 /\ c' = cExecutingState) \/
   (exists i, l = LExecuteStep i /\ c = cExecutingState /\ c' = cDoneState) \/
   (exists k, l = LRemoveDependencyAndQueue k /\ c' = Atomic.wrap32 (c - k)) \/
   (exists k, l = LAddDependency k /\ c' = Atomic.wrap32 (c + k))) /\
  (forall k, l = LRemoveDependencyAndQueue k ->
     0 <= k <= c -> c < 2 ^ 32 -> c' = c - k) /\
  (forall k, l = LAddDependency k ->
     0 <= k -> 0 <= c -> c + k < 2 ^ 32 -> c' = c + k) /\
  (started (job s) = true ->
   (forall k, l <> LAddDependency k) ->
   (forall k, l <> LRemoveDependencyAndQueue k) ->
   started (job (step l s)) = true) /\
  (started (job s) = true -> label_ok s l = true ->
   started (job (step l s)) = true).
Proof.
  intros c c'. split_and!.
  - apply counter_moves.
  - intros k -> Hk Hc. subst c c'. simpl. unfold Atomic.wrap32.
    apply Z.mod_small. lia.
  - intros k -> Hk Hc Hck. subst c c'. simpl. unfold Atomic.wrap32.
    apply Z.mod_small. lia.
  - apply started_kept.
  - intros Hs Hok. apply started_kept; [done| |]; intros k ->; simpl in Hok;
      rewrite Hs in Hok; by rewrite andb_false_r in Hok.
Qed.

(** A call that has frozen the barrier slot and is about to mark the job
    done. *)
Definition call_before_mark_done : list Label :=
  [LCallExecute; LExecuteStep 0; LExecuteStep 0; LExecuteStep 0; LExecuteStep 0].

Lemma counter_transitions_witness :
  started (job (run call_before_mark_done (init 0))) = true /\
  label_ok (run call_before_mark_done (init 0)) (LExecuteStep 0) = true /\
  started (job (step (LExecuteStep 0) (run call_before_mark_done (init 0)))) = true.
Proof.
  split; [reflexivity|]. split; [reflexivity|].
  apply (counter_transitions (run call_before_mark_done (init 0)) (LExecuteStep 0));
    reflexivity.
Defined.

(** ** RemoveDependency and the enqueue *)

(** The number of calls of RemoveDependencyAndQueue in a run whose
    resulting counter value is zero. *)
Fixpoint removals_reaching_zero (s : Sys) (ls : list Label) : nat :=
  match ls with
  | [] => O
  | l :: ls' =>
      ((match l with
        | LRemoveDependencyAndQueue k =>
            if snd (RemoveDependency k (job s)) then 1 else 0
        | _ => 0
        end) + removals_reaching_zero (step l s) ls')%nat
  end.

Lemma queued_step l s :
  queued (step l s) =
  (queued s + match l with
              | LRemoveDependencyAndQueue k =>
                  if snd (RemoveDependency k (job s)) then 1 else 0
              | _ => 0
              end)%nat.
Proof.
  unfold queued. destruct l; simpl; try lia.
  - destruct (calls s !! i) as [pc|] eqn:Hi; [|lia].
    pose proof (exec_step_effects pc (job s)) as (H & _).
    destruct (exec_step pc (job s)) as [[pc' j'] evs]. simpl in *.
    rewrite count_event_app. lia.
  - unfold Release. destruct (_ =? 0); simpl; rewrite count_event_app; simpl; lia.
  - unfold RemoveDependencyAndQueue, RemoveDependency. simpl.
    destruct (_ =? 0); simpl; rewrite count_event_app; simpl; lia.
Qed.

Lemma queued_run ls : forall s,
  queued (run ls s) = (queued s + removals_reaching_zero s ls)%nat.
Proof.
  induction ls as [|l ls IH]; intros s; [simpl; lia|].
  rewrite run_cons, IH, queued_step. simpl. lia.
Qed.

(** Once the job has been queued its counter is 0 or a sentinel, where the
    contract allows no further RemoveDependency. *)
Definition queue_inv (s : Sys) : Prop :=
  (queued s <= 1)%nat /\
  (queued s = 1%nat ->
   mNumDependencies (job s) = 0 \/ started (job s) = true).

Lemma queue_inv_step s l :
  queue_inv s -> label_ok s l = true -> queue_inv (step l s).
Proof.
  intros [Hq Hc] Hok. unfold queue_inv. rewrite queued_step.
  pose proof (counter_moves s l) as Hmove. pose proof (started_kept s l) as Hkeep.
  simpl in Hmove.
  destruct l; simpl in Hok; rewrite ?Nat.add_0_r.
  1-5: split; [done|]; intros H1; destruct (Hc H1) as [H0|Hs];
       [|right; apply Hkeep; done].
  1-5: destruct Hmove as [H|[(i' & _ & H)|[(i' & _ & H)|[(k & H & _)|(k & H & _)]]]];
       try done;
       [left; lia | right; apply started_counter; left; apply H
       | right; apply started_counter; right; apply H].
  - apply label_ok_counter in Hok as (H1 & H2 & H3).
    assert (queued s = O).
    { destruct (Nat.eq_dec (queued s) 1%nat) as [E|E]; [|lia].
      destruct (Hc E) as [H|H]; [done|].
      apply started_counter in H as [H|H]; done. }
    split; [lia|]. intros ?. lia.
  - apply label_ok_counter in Hok as (H1 & H2 & H3).
    assert (queued s = O).
    { destruct (Nat.eq_dec (queued s) 1%nat) as [E|E]; [|lia].
      destruct (Hc E) as [H|H]; [done|].
      apply started_counter in H as [H|H]; done. }
    simpl. unfold RemoveDependency. simpl.
    destruct (Z.eqb_spec (Atomic.wrap32 (mNumDependencies (job s) - inCount)) 0);
      split; lia.
Qed.

Lemma queue_inv_run ls : forall s,
  queue_inv s -> legal s ls = true -> queue_inv (run ls s).
Proof.
  induction ls as [|l ls IH]; intros s HI Hl; [done|].
  simpl in Hl. apply andb_true_iff in Hl as [H1 H2].
  rewrite run_cons. apply IH; [by apply queue_inv_step | done].
Qed.

(** C5: RemoveDependency(n) subtracts n from the counter in one atomic
    fetch-and-subtract and reports the job as runnable exactly when the new
    value is zero; RemoveDependencyAndQueue hands the job to QueueJob once
    in that case and does nothing else otherwise.  In every run within the
    contract at most one call has a result of zero, so that the job is
    queued at most once, by that call. *)
Theorem RemoveDependency_queues_once (n0 : Z) (ls : list Label) :
  legal (init n0) ls = true ->
  (forall k j,
     RemoveDependency k j =
     (set_mNumDependencies (Atomic.wrap32 (mNumDependencies j - k)) j,
      Atomic.wrap32 (mNumDependencies j - k) =? 0)) /\
  (forall k j,
     RemoveDependencyAndQueue k j =
     (fst (RemoveDependency k j),
      if snd (RemoveDependency k j) then [EvQueueJob] else [])) /\
  queued (run ls (init n0)) = removals_reaching_zero (init n0) ls /\
  (removals_reaching_zero (init n0) ls <= 1)%nat.
Proof.
  intros Hl. split_and!; try done.
  - apply (queued_run ls (init n0)).
  - pose proof (queued_run ls (init n0)) as Hq.
    assert (HI : queue_inv (init n0)) by (split; unfold queued; simpl; [lia | by intros [=]]).
    destruct (queue_inv_run ls (init n0) HI Hl) as [H _].
    change (queued (init n0)) with O in Hq. lia.
Qed.

(** Two predecessors finish, the second one makes the job runnable. *)
Definition two_predecessors : list Label :=
  [LRemoveDependencyAndQueue 1; LRemoveDependencyAndQueue 1;
   LCallExecute; LExecuteStep 0; LExecuteStep 0].

Lemma RemoveDependency_queues_once_witness :
  legal (init 2) two_predecessors = true /\
  queued (run two_predecessors (init 2)) =
  removals_reaching_zero (init 2) two_predecessors.
Proof.
  split; [reflexivity|].
  apply (RemoveDependency_queues_once 2 two_predecessors). reflexivity.
Defined.

(** ** Release and FreeJob *)

(** C6, as stated, fails: a job created with one dependency, referenced by
    one handle that is then released, is handed to FreeJob while its
    counter is 1: it never ran and is not done. *)
Lemma Release_frees_job_that_is_not_done :
  legal (init 1) [LAddRef; LRelease] = true /\
  log (run [LAddRef; LRelease] (init 1)) = [EvFreeJob] /\
  mNumDependencies (job (run [LAddRef; LRelease] (init 1))) = 1 /\
  IsDone (job (run [LAddRef; LRelease] (init 1))) = false /\
  payloads (run [LAddRef; LRelease] (init 1)) = O.
Proof. by vm_compute. Qed.

(** C6, amended: FreeJob is invoked by exactly the Release whose decrement
    brings the reference count to zero (for a count within uint32: the
    Release that finds it at 1), whatever the dependency counter holds:
    Release neither reads nor changes the counter or the barrier slot. *)
Theorem Release_frees_at_zero_references (j : Job) :
  (snd (Release j) = [EvFreeJob] \/ snd (Release j) = []) /\
  (snd (Release j) = [EvFreeJob] <->
   Atomic.wrap32 (mReferenceCount j - 1) = 0) /\
  (0 <= mReferenceCount j < 2 ^ 32 ->
   (snd (Release j) = [EvFreeJob] <-> mReferenceCount j = 1)) /\
  mNumDependencies (fst (Release j)) = mNumDependencies j /\
  mBarrier (fst (Release j)) = mBarrier j /\
  (forall c, snd (Release (set_mNumDependencies c j)) = snd (Release j)).
Proof.
  unfold Release, Atomic.pre_decrement. simpl.
  destruct (Z.eqb_spec (Atomic.wrap32 (mReferenceCount j - 1)) 0) as [E|E];
    split_and!; try done; try (by left); try (by right).
  - intros Hr. split; [intros _|done]. unfold Atomic.wrap32 in E.
    destruct (Z.eq_dec (mReferenceCount j) 0) as [H0|H0].
    + rewrite H0 in E. by vm_compute in E.
    + rewrite Z.mod_small in E; lia.
  - intros Hr. split; [done|]. intros H1. rewrite H1 in E. by vm_compute in E.
Qed.

Lemma Release_frees_at_zero_references_witness :
  0 <= mReferenceCount (mkJobFields 0 1 7) < 2 ^ 32 /\
  (snd (Release (mkJobFields 0 1 7)) = [EvFreeJob] <->
   mReferenceCount (mkJobFields 0 1 7) = 1).
Proof.
  split; [simpl; lia|].
  apply (Release_frees_at_zero_references (mkJobFields 0 1 7)). simpl. lia.
Defined.

(** ** Reference counting: K handles taken, K handles released *)

(** AddRef and Release are one atomic read-modify-write each, so every
    concurrent use of them is some sequence of the two. *)
Inductive RefOp : Type := OpAddRef | OpRelease.

Definition ref_step (op : RefOp) (j : Job) : Job * list Event :=
  match op with
  | OpAddRef => (AddRef j, [])
  | OpRelease => Release j
  end.

Fixpoint ref_run (ops : list RefOp) (j : Job) : Job * list Event :=
  match ops with
  | [] => (j, [])
  | op :: ops' =>
      let '(j', evs) := ref_step op j in
      let '(j'', evs') := ref_run ops' j' in
      (j'', evs ++ evs')
  end.

Fixpoint count_op (op : RefOp) (ops : list RefOp) : nat :=
  match ops with
  | [] => O
  | OpAddRef :: ops' =>
      ((match op with OpAddRef => 1 | OpRelease => 0 end) + count_op op ops')%nat
  | OpRelease :: ops' =>
      ((match op with OpAddRef => 0 | OpRelease => 1 end) + count_op op ops')%nat
  end.

(** Every Release gives back a reference that was taken before it:
    [live] references are held before [ops]. *)
Fixpoint releases_follow_addrefs (live : nat) (ops : list RefOp) : bool :=
  match ops with
  | [] => true
  | OpAddRef :: ops' => releases_follow_addrefs (S live) ops'
  | OpRelease :: ops' =>
      match live with
      | O => false
      | S live' => releases_follow_addrefs live' ops'
      end
  end.

(** The stored count is not zero before any of the operations of [ops]. *)
Fixpoint held_before_each (j : Job) (ops : list RefOp) : bool :=
  match ops with
  | [] => true
  | op :: ops' =>
      negb (mReferenceCount j =? 0) && held_before_each (fst (ref_step op j)) ops'
  end.

(** The count never reaches zero early: it is not zero between the first
    and the last operation. *)
Definition never_zero_early (j : Job) (ops : list RefOp) : bool :=
  match ops with
  | [] => true
  | op :: ops' => held_before_each (fst (ref_step op j)) ops'
  end.

Lemma AddRef_count j :
  0 <= mReferenceCount j < 2 ^ 32 ->
  mReferenceCount (AddRef j) <> 0 ->
  mReferenceCount (AddRef j) = mReferenceCount j + 1 /\
  mReferenceCount j + 1 < 2 ^ 32.
Proof.
  simpl. unfold Atomic.pre_increment, Atomic.wrap32. intros Hrc Hnz.
  destruct (Z.eq_dec (mReferenceCount j + 1) (2 ^ 32)) as [E|E].
  - rewrite E in Hnz. by vm_compute in Hnz.
  - split; [apply Z.mod_small|]; lia.
Qed.

Lemma Release_count j :
  1 <= mReferenceCount j < 2 ^ 32 ->
  mReferenceCount (fst (Release j)) = mReferenceCount j - 1 /\
  snd (Release j) = if mReferenceCount j =? 1 then [EvFreeJob] else [].
Proof.
  intros Hrc. unfold Release, Atomic.pre_decrement, Atomic.wrap32. simpl.
  rewrite Z.mod_small by lia. split; [done|].
  destruct (Z.eqb_spec (mReferenceCount j - 1) 0), (Z.eqb_spec (mReferenceCount j) 1);
    done || lia.
Qed.

Lemma held_before_each_head j op ops :
  held_before_each j (op :: ops) = true -> mReferenceCount j <> 0.
Proof.
  simpl. intros H. apply andb_true_iff in H as [H _].
  by apply negb_true_iff, Z.eqb_neq in H.
Qed.

Lemma ref_run_cons op ops j :
  ref_run (op :: ops) j =
  (fst (ref_run ops (fst (ref_step op j))),
   snd (ref_step op j) ++ snd (ref_run ops (fst (ref_step op j)))).
Proof.
  simpl. destruct (ref_step op j) as [j' evs]. simpl.
  by destruct (ref_run ops j') as [j'' evs'].
Qed.

Lemma ref_run_held (ops : list RefOp) : forall (j : Job),
  1 <= mReferenceCount j < 2 ^ 32 ->
  held_before_each j ops = true ->
  (Z.to_nat (mReferenceCount j) + count_op OpAddRef ops)%nat = count_op OpRelease ops ->
  snd (ref_run ops j) = [EvFreeJob] /\
  mReferenceCount (fst (ref_run ops j)) = 0 /\
  exists ops', ops = ops' ++ [OpRelease] /\ snd (ref_run ops' j) = [].
Proof.
  induction ops as [|op ops IH]; intros j Hrc Hheld Hcnt.
  - simpl in Hcnt. lia.
  - simpl in Hheld. apply andb_true_iff in Hheld as [_ Hheld].
    rewrite ref_run_cons.
    destruct ops as [|op' ops'] eqn:Hops.
    + (* the last operation *)
      destruct op; simpl in Hcnt; [lia|].
      destruct (Release_count j Hrc) as [Hz Hev].
      change (ref_step OpRelease j) with (Release j).
      rewrite Hev. replace (mReferenceCount j) with 1 in * by lia.
      split_and!; [done | done |]. by exists [].
    + rewrite <- Hops in *.
      assert (Hnz : mReferenceCount (fst (ref_step op j)) <> 0).
      { rewrite Hops in Hheld. by apply held_before_each_head in Hheld. }
      assert (Hstep : 1 <= mReferenceCount (fst (ref_step op j)) < 2 ^ 32 /\
                      snd (ref_step op j) = [] /\
                      (Z.to_nat (mReferenceCount (fst (ref_step op j)))
                       + count_op OpAddRef ops)%nat = count_op OpRelease ops).
      { destruct op; simpl in Hcnt.
        - destruct (AddRef_count j ltac:(lia) Hnz) as [H1 H2].
          simpl ref_step. simpl fst. simpl snd. rewrite H1. split_and!; done || lia.
        - destruct (Release_count j Hrc) as [H1 H2].
          change (ref_step OpRelease j) with (Release j) in *.
          rewrite H1 in *. rewrite H2.
          destruct (Z.eqb_spec (mReferenceCount j) 1); [lia|].
          split_and!; done || lia. }
      destruct Hstep as (Hrc' & Hev & Hcnt').
      destruct (IH _ Hrc' Hheld Hcnt') as (Hev' & Hz & ops1 & Hl & Hev1).
      rewrite Hev, Hev'. split_and!; [done | done |].
      exists (op :: ops1). split; [by rewrite Hl|].
      rewrite ref_run_cons, Hev, Hev1. done.
Qed.

(** C7: for every K >= 1, K calls of AddRef and K calls of Release on a
    fresh Job, in any order in which every Release gives back a reference
    taken before it and the count is not zero between the first and the
    last call, result in exactly one call of FreeJob: it is made by the
    last call, which is the Release that brings the count to zero, and no
    other Release calls FreeJob. *)
Theorem K_AddRef_K_Release_free_once (K : nat) (ops : list RefOp) (j : Job) :
  mReferenceCount j = 0 ->
  (1 <= K)%nat ->
  count_op OpAddRef ops = K ->
  count_op OpRelease ops = K ->
  releases_follow_addrefs 0 ops = true ->
  never_zero_early j ops = true ->
  count_event is_FreeJob (snd (ref_run ops j)) = 1%nat /\
  snd (ref_run ops j) = [EvFreeJob] /\
  mReferenceCount (fst (ref_run ops j)) = 0 /\
  exists ops', ops = ops' ++ [OpRelease] /\ snd (ref_run ops' j) = [].
Proof.
  intros Hrc HK Hadd Hrel Hfol Hnz.
  destruct ops as [|[|] ops]; [simpl in Hadd; lia | | done].
  simpl in Hadd, Hrel, Hfol, Hnz.
  destruct ops as [|op' ops'] eqn:Hops; [simpl in Hadd, Hrel; lia|].
  rewrite <- Hops in *.
  assert (Hone : mReferenceCount (AddRef j) = 1).
  { destruct (AddRef_count j) as [H _]; [lia | | lia].
    rewrite Hops in Hnz. by apply held_before_each_head in Hnz. }
  destruct (ref_run_held ops (AddRef j)) as (Hev & Hz & ops1 & Hl & Hev1);
    [lia | done | lia |].
  rewrite ref_run_cons. change (ref_step OpAddRef j) with (AddRef j, @nil Event).
  simpl fst. simpl snd. rewrite Hev. split_and!; try done.
  exists (OpAddRef :: ops1). split; [by rewrite Hl|].
  rewrite ref_run_cons. change (ref_step OpAddRef j) with (AddRef j, @nil Event).
  simpl fst. simpl snd. by rewrite Hev1.
Qed.

(** Three handles, taken and released in a mixed order. *)
Lemma K_AddRef_K_Release_free_once_witness :
  mReferenceCount (newJob 1) = 0 /\
  (1 <= 3)%nat /\
  releases_follow_addrefs 0
    [OpAddRef; OpAddRef; OpRelease; OpAddRef; OpRelease; OpRelease] = true /\
  never_zero_early (newJob 1)
    [OpAddRef; OpAddRef; OpRelease; OpAddRef; OpRelease; OpRelease] = true /\
  snd (ref_run [OpAddRef; OpAddRef; OpRelease; OpAddRef; OpRelease; OpRelease]
               (newJob 1)) = [EvFreeJob].
Proof.
  split; [reflexivity|]. split; [lia|]. split; [reflexivity|]. split; [reflexivity|].
  apply (K_AddRef_K_Release_free_once 3
           [OpAddRef; OpAddRef; OpRelease; OpAddRef; OpRelease; OpRelease]
           (newJob 1)); reflexivity || lia.
Defined.

(** ** The sentinels share the counter with the counts *)

(** AddDependency and RemoveDependency keep the counter strictly below
    [cDoneState] (and hence below both sentinels). *)
Definition label_below (s : Sys) (l : Label) : bool :=
  match l with
  | LAddDependency _ | LRemoveDependencyAndQueue _ =>
      (0 <=? mNumDependencies (job (step l s)))
      && (mNumDependencies (job (step l s)) <? cDoneState)
  | _ => true
  end.

Fixpoint stays_below (s : Sys) (ls : list Label) : bool :=
  match ls with
  | [] => true
  | l :: ls' => label_below s l && stays_below (step l s) ls'
  end.

(** While nobody has claimed the job its counter is a count below the
    sentinels. *)
Definition idle_below (s : Sys) : Prop :=
  phase_idle s -> 0 <= mNumDependencies (job s) < cDoneState.

Lemma idle_below_step s l :
  Inv s -> label_ok s l = true -> label_below s l = true ->
  idle_below s -> idle_below (step l s).
Proof.
  intros (Hpcs & _ & Hph) Hok Hbelow Hidle. unfold idle_below in *.
  unfold phase_idle, phase_executing, phase_done, payloads, notifications in *.
  destruct l; simpl in *.
  - rewrite !count_pc_app. simpl. rewrite !Nat.add_0_r. done.
  - destruct (calls s !! i) as [pc|] eqn:Hi; [|done].
    destruct (calls_split _ _ _ Hi) as (l1 & l2 & Hts & Hins). clear Hi.
    rewrite Hts in *. rewrite !count_pc_app in *. simpl in *.
    apply Forall_app in Hpcs as [_ Hpcs]. apply Forall_cons in Hpcs as [Hpc _].
    pose proof sentinels_distinct as (Hs1 & Hs2 & Hs3).
    destruct pc; unfold exec_step, Atomic.compare_exchange_strong;
      repeat match goal with |- context [ ?x =? ?y ] => destruct (Z.eqb_spec x y) end;
      simpl; rewrite Hins, ?count_pc_app, ?count_event_app;
      simpl in *; rewrite ?Nat.add_0_r; try lia.
  - unfold SetBarrier, Atomic.compare_exchange_strong.
    destruct (mBarrier (job s) =? 0); simpl; lia.
  - done.
  - unfold Release. destruct (_ =? 0); simpl; rewrite count_event_app; simpl; lia.
  - intros _. lia.
  - unfold RemoveDependencyAndQueue, RemoveDependency in *. simpl in *.
    intros _. lia.
Qed.

Lemma idle_below_run ls : forall s,
  Inv s -> idle_below s -> legal s ls = true -> stays_below s ls = true ->
  idle_below (run ls s).
Proof.
  induction ls as [|l ls IH]; intros s HI Hb Hl Hs; [done|].
  simpl in Hl, Hs. apply andb_true_iff in Hl as [Hl1 Hl2].
  apply andb_true_iff in Hs as [Hs1 Hs2]. rewrite run_cons.
  apply IH; [by apply Inv_step | by apply idle_below_step | done | done].
Qed.

(** C9: the execution state shares the 32-bit counter with the counts:
    cExecutingState is the ordinary value 0xe0e0e0e0 and cDoneState the
    ordinary value 0xd0d0d0d0, and IsDone, CanBeExecuted and the claim of
    Execute test the counter for equality with cDoneState, 0 and 0.  In
    every run in which the counts stay strictly below 0xd0d0d0d0 the tests
    are right: IsDone holds exactly when the payload has run and its call
    has marked the job done, CanBeExecuted only when nobody has claimed the
    job, and the counter reads cExecutingState exactly while a call
    executes the job.  A count that equals a sentinel is misread: a job
    created with 0xd0d0d0d0 dependencies, or brought there by
    AddDependency, is reported done although it never ran, and Execute
    returns cDoneState on it without running the payload. *)
Theorem sentinels_share_the_counter :
  cExecutingState = 0xe0e0e0e0 /\ cDoneState = 0xd0d0d0d0 /\
  (forall j, IsDone j = (mNumDependencies j =? 0xd0d0d0d0)) /\
  (forall j, CanBeExecuted j = (mNumDependencies j =? 0)) /\
  (forall j, fst (fst (exec_step AtClaim j)) = AtJobFunction <->
             mNumDependencies j = 0) /\
  (forall n ls,
     0 <= n < cDoneState ->
     legal (init n) ls = true -> stays_below (init n) ls = true ->
     let s := run ls (init n) in
     (IsDone (job s) = true <->
      payloads s = 1%nat /\ count_pc executing (calls s) = O) /\
     (CanBeExecuted (job s) = true ->
      payloads s = O /\ count_pc executing (calls s) = O) /\
     (mNumDependencies (job s) = cExecutingState <->
      count_pc executing (calls s) = 1%nat)) /\
  (IsDone (newJob 0xd0d0d0d0) = true /\
   log (init 0xd0d0d0d0) = [] /\
   Execute (newJob 0xd0d0d0d0) = Some (newJob 0xd0d0d0d0, [], cDoneState)) /\
  (legal (init 0xd0d0d0cf) [LAddDependency 1] = true /\
   IsDone (job (run [LAddDependency 1] (init 0xd0d0d0cf))) = true /\
   log (run [LAddDependency 1] (init 0xd0d0d0cf)) = []).
Proof.
  split_and!; try done.
  - intros j. unfold exec_step, Atomic.compare_exchange_strong.
    destruct (Z.eqb_spec (mNumDependencies j) 0); simpl; split; done.
  - intros n ls Hn Hl Hb s.
    pose proof (Inv_reachable n ls Hl) as HI.
    assert (Hidle : idle_below s).
    { apply idle_below_run; [apply Inv_init | by intros _ | done | done]. }
    fold s in HI. destruct HI as (_ & _ & Hph). unfold idle_below in Hidle.
    pose proof sentinels_distinct as (Hs1 & Hs2 & Hs3).
    assert (Hd : cDoneState < cExecutingState) by done.
    unfold IsDone, CanBeExecuted. rewrite !Z.eqb_eq.
    unfold phase_idle, phase_executing, phase_done in *.
    destruct Hph as [H|[H|H]]; [specialize (Hidle H)|..]; split_and!; lia.
Qed.

Lemma sentinels_share_the_counter_witness :
  0 <= 2 < cDoneState /\
  legal (init 2) two_predecessors = true /\
  stays_below (init 2) two_predecessors = true /\
  (mNumDependencies (job (run two_predecessors (init 2))) = cExecutingState <->
   count_pc executing (calls (run two_predecessors (init 2))) = 1%nat).
Proof.
  split; [done|]. split; [reflexivity|]. split; [reflexivity|].
  apply (sentinels_share_the_counter); [done | reflexivity | reflexivity].
Defined.

(** ** The empty JobHandle *)

(** C10: on an empty JobHandle, IsValid and IsDone return false and do not
    dereference the pointer, whereas AddDependency and RemoveDependency
    dereference it unconditionally and fault; on a handle that contains a
    Job neither of them faults, and IsValid and IsDone fault on no handle
    at all. *)
Theorem empty_JobHandle (inCount : Z) :
  JobHandle.IsValid None = Ok false /\
  JobHandle.IsDone None = Ok false /\
  JobHandle.AddDependency inCount None = NullDereference /\
  JobHandle.RemoveDependency inCount None = NullDereference /\
  (forall h, JobHandle.GetPtr h <> None ->
     JobHandle.IsValid h = Ok true /\
     (exists h', JobHandle.AddDependency inCount h = Ok h') /\
     (exists r, JobHandle.RemoveDependency inCount h = Ok r)) /\
  (forall h, JobHandle.IsValid h <> NullDereference /\
             JobHandle.IsDone h <> NullDereference) /\
  (forall j, JobHandle.IsDone (Some j) = Ok (IsDone j)).
Proof.
  split_and!; try done.
  - intros [j|] H; [|done]. split_and!; [done | by eexists | by eexists].
  - intros [j|]; done.
Qed.

Lemma empty_JobHandle_witness :
  JobHandle.GetPtr (Some (newJob 1)) <> None /\
  exists r, JobHandle.RemoveDependency 1 (Some (newJob 1)) = Ok r.
Proof.
  split; [done|].
  apply (empty_JobHandle 1 ). done.
Defined.

(** * Further properties of the Job *)

(** ** One call of Execute, and a second one after it *)

(** X1: a call of Execute that nobody interferes with, on a Job whose
    counter is 0, runs the payload once, then notifies the barrier found in
    the slot if there is one, returns cDoneState and leaves the counter at
    cDoneState, the slot at cBarrierDoneState and the reference count as it
    was; a second call then returns cDoneState and does nothing, and
    SetBarrier on the finished Job returns false. *)
Theorem Execute_then_Execute (j : Job) (inBarrier : Z) :
  mNumDependencies j = 0 ->
  exists j1,
    Execute j =
      Some (j1,
            EvJobFunction ::
              (if mBarrier j =? 0 then [] else [EvOnJobFinished (mBarrier j)]),
            cDoneState) /\
    j1 = mkJobFields cBarrierDoneState (mReferenceCount j) cDoneState /\
    IsDone j1 = true /\ CanBeExecuted j1 = false /\
    Execute j1 = Some (j1, [], cDoneState) /\
    SetBarrier inBarrier j1 = (j1, false).
Proof.
  intros H. eexists. split; [by apply Execute_runnable|].
  destruct j as [b rc c]. simpl in *. subst c. split_and!; done.
Qed.

Lemma Execute_then_Execute_witness :
  mNumDependencies (mkJobFields 4096 2 0) = 0 /\
  exists j1,
    Execute (mkJobFields 4096 2 0) =
      Some (j1, [EvJobFunction; EvOnJobFinished 4096], cDoneState) /\
    Execute j1 = Some (j1, [], cDoneState).
Proof.
  split; [reflexivity|].
  destruct (Execute_then_Execute (mkJobFields 4096 2 0) 8192 eq_refl)
    as (j1 & H1 & _ & _ & _ & H2 & _).
  exists j1. split; [exact H1 | exact H2].
Defined.

(** X2: Execute runs the payload exactly when CanBeExecuted holds of the
    Job it is called on; its return value cDoneState does not tell the two
    apart, since on a Job that already is done it returns cDoneState
    without running anything. *)
Theorem Execute_runs_iff_CanBeExecuted (j : Job) :
  (CanBeExecuted j = true <->
   exists j' evs r, Execute j = Some (j', evs, r) /\ In EvJobFunction evs) /\
  (IsDone j = true -> Execute j = Some (j, [], cDoneState)).
Proof.
  unfold CanBeExecuted, IsDone. split.
  - destruct (Z.eqb_spec (mNumDependencies j) 0) as [E|E].
    + split; [intros _|done]. rewrite (Execute_runnable j E).
      do 3 eexists. split; [done|]. by left.
    + split; [done|]. rewrite (Execute_not_runnable j E).
      intros (j' & evs & r & [= <- <- <-] & []).
  - intros H. apply Z.eqb_eq in H. rewrite Execute_not_runnable; [by rewrite H|].
    rewrite H. done.
Qed.

Lemma Execute_runs_iff_CanBeExecuted_witness :
  IsDone (newJob cDoneState) = true /\
  Execute (newJob cDoneState) = Some (newJob cDoneState, [], cDoneState).
Proof.
  split; [reflexivity|].
  apply (Execute_runs_iff_CanBeExecuted (newJob cDoneState)). reflexivity.
Defined.

(** X12: what Execute returns is the counter as the call leaves it, and it
    is never 0: cDoneState when the call ran the job, otherwise the
    non-zero value that made its compare-and-swap fail (the dependencies
    the job still has, or a sentinel). *)
Theorem Execute_returns_final_counter (j j' : Job) (evs : list Event) (r : Z) :
  Execute j = Some (j', evs, r) ->
  r = mNumDependencies j' /\ r <> 0 /\
  (r = cDoneState \/ r = mNumDependencies j) /\
  (evs = [] -> j' = j /\ r = mNumDependencies j).
Proof.
  destruct (Z.eq_dec (mNumDependencies j) 0) as [E|E].
  - rewrite (Execute_runnable j E). intros [= <- <- <-].
    split_and!; [done | done | by left | done].
  - rewrite (Execute_not_runnable j E). intros [= <- <- <-].
    split_and!; [done | done | by right | done].
Qed.

Lemma Execute_returns_final_counter_witness :
  Execute (newJob 3) = Some (newJob 3, [], 3) /\ 3 <> 0.
Proof.
  split; [reflexivity|].
  apply (Execute_returns_final_counter (newJob 3) (newJob 3) [] 3). reflexivity.
Defined.

(** ** A done Job stays done *)

(** X3: once IsDone holds it holds for good: no step of Execute, SetBarrier,
    AddRef or Release, and no AddDependency or RemoveDependency within
    their contract, changes the counter of a Job that is done. *)
Theorem IsDone_is_stable (ls : list Label) : forall (s : Sys),
  IsDone (job s) = true -> legal s ls = true ->
  IsDone (job (run ls s)) = true /\
  mNumDependencies (job (run ls s)) = cDoneState.
Proof.
  induction ls as [|l ls IH]; intros s Hd Hl.
  - split; [done|]. by apply Z.eqb_eq in Hd.
  - simpl in Hl. apply andb_true_iff in Hl as [Hok Hl]. rewrite run_cons.
    apply IH; [|done]. unfold IsDone in *. apply Z.eqb_eq in Hd. apply Z.eqb_eq.
    pose proof sentinels_distinct as (Hs1 & Hs2 & Hs3).
    destruct (counter_moves s l)
      as [H|[(i & _ & H)|[(i & _ & H)|[(k & -> & _)|(k & -> & _)]]]];
      try lia.
    + simpl in Hok. unfold started in Hok. rewrite Hd in Hok.
      rewrite Z.eqb_refl, orb_true_r in Hok. by rewrite andb_false_r in Hok.
    + simpl in Hok. unfold started in Hok. rewrite Hd in Hok.
      rewrite Z.eqb_refl, orb_true_r in Hok. by rewrite andb_false_r in Hok.
Qed.

Lemma IsDone_is_stable_witness :
  IsDone (job (run one_call_to_completion (init 0))) = true /\
  legal (run one_call_to_completion (init 0))
        [LCallExecute; LExecuteStep 1; LSetBarrier 4096; LAddRef; LRelease] = true /\
  IsDone (job (run [LCallExecute; LExecuteStep 1; LSetBarrier 4096; LAddRef; LRelease]
                   (run one_call_to_completion (init 0)))) = true.
Proof.
  split; [reflexivity|]. split; [reflexivity|].
  apply (IsDone_is_stable
           [LCallExecute; LExecuteStep 1; LSetBarrier 4096; LAddRef; LRelease]
           (run one_call_to_completion (init 0))); reflexivity.
Defined.

(** ** The reference count *)

(** The calls of AddRef minus the calls of Release in a run. *)
Fixpoint ref_delta (ls : list Label) : Z :=
  match ls with
  | [] => 0
  | LAddRef :: ls' => 1 + ref_delta ls'
  | LRelease :: ls' => -1 + ref_delta ls'
  | _ :: ls' => ref_delta ls'
  end.

Lemma wrap32_idemp_add z d :
  Atomic.wrap32 (Atomic.wrap32 z + d) = Atomic.wrap32 (z + d).
Proof. unfold Atomic.wrap32. by rewrite Zplus_mod_idemp_l. Qed.

Lemma refcount_step l s :
  mReferenceCount (job (step l s)) =
  match l with
  | LAddRef => Atomic.wrap32 (mReferenceCount (job s) + 1)
  | LRelease => Atomic.wrap32 (mReferenceCount (job s) - 1)
  | _ => mReferenceCount (job s)
  end.
Proof.
  destruct l; simpl; try done.
  - destruct (calls s !! i) as [pc|] eqn:Hi; [|done].
    pose proof (exec_step_effects pc (job s)) as (_ & _ & H & _).
    by destruct (exec_step pc (job s)) as [[pc' j'] evs].
  - unfold SetBarrier, Atomic.compare_exchange_strong.
    by destruct (mBarrier (job s) =? 0).
Qed.

(** X4: the reference count is touched by AddRef and Release only: after
    any run, whatever else happens in it (calls of Execute, SetBarrier,
    AddDependency, RemoveDependency), a count that was within uint32 is
    the old one plus the calls of AddRef minus the calls of Release,
    modulo 2^32. *)
Theorem refcount_counts_handles (ls : list Label) : forall (s : Sys),
  0 <= mReferenceCount (job s) < 2 ^ 32 ->
  mReferenceCount (job (run ls s)) =
  Atomic.wrap32 (mReferenceCount (job s) + ref_delta ls).
Proof.
  induction ls as [|l ls IH]; intros s Hrc.
  - simpl. rewrite Z.add_0_r. unfold Atomic.wrap32. by rewrite Z.mod_small.
  - rewrite run_cons.
    assert (Hr : 0 <= mReferenceCount (job (step l s)) < 2 ^ 32).
    { rewrite refcount_step. unfold Atomic.wrap32.
      destruct l; try done; by apply Z.mod_pos_bound. }
    rewrite (IH _ Hr), refcount_step.
    destruct l; simpl ref_delta; rewrite ?wrap32_idemp_add; f_equal; lia.
Qed.

Lemma refcount_counts_handles_witness :
  0 <= mReferenceCount (job (init 0)) < 2 ^ 32 /\
  mReferenceCount
    (job (run [LAddRef; LCallExecute; LAddRef; LExecuteStep 0; LRelease] (init 0))) =
  Atomic.wrap32 (0 + 1).
Proof.
  split; [by compute|].
  apply (refcount_counts_handles
           [LAddRef; LCallExecute; LAddRef; LExecuteStep 0; LRelease] (init 0)).
  by compute.
Defined.

(** X5: taking a reference and giving it back restores the Job, for every
    count within uint32, the wrap at 2^32 - 1 included; the Release calls
    FreeJob exactly when the count was 0 before the AddRef, as it is on a
    Job that no handle refers to yet. *)
Theorem AddRef_then_Release (j : Job) :
  0 <= mReferenceCount j < 2 ^ 32 ->
  fst (Release (AddRef j)) = j /\
  snd (Release (AddRef j)) =
    (if mReferenceCount j =? 0 then [EvFreeJob] else []).
Proof.
  intros Hrc. destruct j as [b rc c]. simpl in Hrc.
  unfold Release, AddRef, Atomic.pre_decrement, Atomic.pre_increment. simpl.
  assert (H : Atomic.wrap32 (Atomic.wrap32 (rc + 1) - 1) = rc).
  { replace (Atomic.wrap32 (rc + 1) - 1) with (Atomic.wrap32 (rc + 1) + -1) by lia.
    rewrite wrap32_idemp_add. unfold Atomic.wrap32.
    replace (rc + 1 + -1) with rc by lia. by apply Z.mod_small. }
  rewrite H. split; [done|]. done.
Qed.

Lemma AddRef_then_Release_witness :
  0 <= mReferenceCount (mkJobFields 0 (2 ^ 32 - 1) 3) < 2 ^ 32 /\
  fst (Release (AddRef (mkJobFields 0 (2 ^ 32 - 1) 3))) = mkJobFields 0 (2 ^ 32 - 1) 3.
Proof.
  split; [by compute|].
  apply (AddRef_then_Release (mkJobFields 0 (2 ^ 32 - 1) 3)). by compute.
Defined.

(** ** Barriers attached and barriers notified *)

(** A captured slot value as a list of barriers: none for the null pointer. *)
Definition real_barrier (x : Z) : list Z := if x =? 0 then [] else [x].

(** The barriers attached in a run: the non-null arguments of the calls of
    SetBarrier that returned true, in order. *)
Fixpoint attached (s : Sys) (ls : list Label) : list Z :=
  match ls with
  | [] => []
  | l :: ls' =>
      (match l with
       | LSetBarrier b => if snd (SetBarrier b (job s)) then real_barrier b else []
       | _ => []
       end) ++ attached (step l s) ls'
  end.

(** The barriers notified: the arguments of the calls of OnJobFinished. *)
Fixpoint notified (lg : list Event) : list Z :=
  match lg with
  | [] => []
  | EvOnJobFinished x :: lg' => x :: notified lg'
  | _ :: lg' => notified lg'
  end.

Lemma notified_app l1 l2 : notified (l1 ++ l2) = notified l1 ++ notified l2.
Proof.
  induction l1 as [|e l1 IH]; [done|]. destruct e; simpl; by rewrite ?IH.
Qed.

(** A call that has captured the slot holds the barrier to notify. *)
Definition holds_barrier (acc nt : list Z) (pc : ExecPc) : Prop :=
  match pc with
  | AtMarkDone x | AtNotify x => acc = real_barrier x /\ nt = []
  | _ => True
  end.

Definition barrier_inv (s : Sys) (acc : list Z) : Prop :=
  Forall (holds_barrier acc (notified (log s))) (calls s) /\
  (mBarrier (job s) <> cBarrierDoneState ->
   acc = real_barrier (mBarrier (job s)) /\ notified (log s) = []) /\
  (mBarrier (job s) = cBarrierDoneState ->
   count_pc executing (calls s) = O -> count_pc notifying (calls s) = O ->
   notified (log s) = acc).

Lemma holds_barrier_others acc nt acc' nt' l :
  count_pc executing l = O -> count_pc notifying l = O ->
  Forall (holds_barrier acc nt) l -> Forall (holds_barrier acc' nt') l.
Proof.
  induction l as [|pc l IH]; intros He Hn H; [constructor|].
  apply Forall_cons in H as [H1 H2]. simpl in He, Hn.
  apply Forall_cons. split.
  - destruct pc; simpl in *; try done; lia.
  - apply IH; [| |done]; destruct (executing pc), (notifying pc); lia.
Qed.

Lemma holds_barrier_unfrozen p b acc nt l :
  b <> cBarrierDoneState -> count_pc notifying l = O ->
  Forall (pc_ok p b) l -> Forall (holds_barrier acc nt) l.
Proof.
  intros Hb. induction l as [|pc l IH]; intros Hn H; [constructor|].
  apply Forall_cons in H as [H1 H2]. simpl in Hn.
  apply Forall_cons. split.
  - destruct pc; simpl in *; try done; try tauto; lia.
  - apply IH; [|done]. destruct (notifying pc); lia.
Qed.

Definition attaches (s : Sys) (l : Label) : list Z :=
  match l with
  | LSetBarrier b => if snd (SetBarrier b (job s)) then real_barrier b else []
  | _ => []
  end.

Lemma barrier_inv_step s l acc :
  Inv s -> label_ok s l = true ->
  barrier_inv s acc -> barrier_inv (step l s) (acc ++ attaches s l).
Proof.
  destruct s as [[b rc c] ts lg].
  unfold Inv, barrier_inv, phase_idle, phase_executing, phase_done, payloads, notifications.
  simpl. intros (Hpcs & _ & Hph) Hok (Hcalls & Hopen & Hclosed).
  destruct l; simpl in *; rewrite ?app_nil_r.
  - rewrite !count_pc_app. simpl. rewrite !Nat.add_0_r.
    split; [|done]. apply Forall_app. split; [done|]. by repeat constructor.
  - destruct (ts !! i) as [pc|] eqn:Hi; [|done].
    destruct (calls_split _ _ _ Hi) as (l1 & l2 & -> & Hins). clear Hi.
    rewrite !count_pc_app in *. simpl in *.
    apply Forall_app in Hpcs as [Hp1 Hpcs]. apply Forall_cons in Hpcs as [Hpc Hp2].
    apply Forall_app in Hcalls as [Hl1 Hcalls]. apply Forall_cons in Hcalls as [Hc Hl2].
    pose proof sentinels_distinct as (Hs1 & Hs2 & Hs3).
    destruct pc; unfold exec_step, Atomic.compare_exchange_strong;
      repeat match goal with |- context [ ?x =? ?y ] => destruct (Z.eqb_spec x y) end;
      simpl; rewrite Hins, ?count_pc_app, ?notified_app, ?Forall_app, ?Forall_cons;
      simpl in *; subst; rewrite ?Nat.add_0_r, ?app_nil_r.
    all: try (split_and!; try done; try tauto; try lia).
    all: try (eapply holds_barrier_others; [| |eassumption]; lia).
    + intros _ _ _. by destruct Hc as [-> ->].
    + intros _ _ _. destruct Hc as [-> ->]. unfold real_barrier.
      by destruct (Z.eqb_spec barrier 0).
  - apply negb_true_iff, Z.eqb_neq in Hok.
    unfold SetBarrier, Atomic.compare_exchange_strong. simpl.
    destruct (Z.eqb_spec b 0) as [->|Hb0]; simpl; rewrite ?app_nil_r; [|done].
    destruct Hopen as [-> Hnt]; [done|]. simpl.
    split_and!; [|done|intros H; by destruct Hok].
    assert (H0 : 0 <> cBarrierDoneState) by done.
    apply (holds_barrier_unfrozen (count_event is_JobFunction lg) 0); [done| |done].
    lia.
  - done.
  - unfold Atomic.pre_decrement. destruct (_ =? 0); rewrite ?notified_app; simpl;
      by rewrite ?app_nil_r.
  - done.
  - clear Hok. destruct (Atomic.wrap32 (c - inCount) =? 0);
      rewrite ?notified_app; simpl; by rewrite ?app_nil_r.
Qed.

Lemma barrier_inv_run ls : forall s acc,
  Inv s -> legal s ls = true -> barrier_inv s acc ->
  barrier_inv (run ls s) (acc ++ attached s ls).
Proof.
  induction ls as [|l ls IH]; intros s acc HI Hl HB.
  - simpl. by rewrite app_nil_r.
  - simpl in Hl. apply andb_true_iff in Hl as [Hok Hl].
    rewrite run_cons. simpl attached. fold (attaches s l). rewrite app_assoc.
    apply IH; [by apply Inv_step | done | by apply barrier_inv_step].
Qed.

Lemma count_pc_Forall (P : ExecPc -> Prop) f (ts : list ExecPc) :
  Forall P ts -> (1 <= count_pc f ts)%nat -> exists pc, P pc /\ f pc = true.
Proof.
  induction ts as [|pc ts IH]; simpl; [lia|]. intros H Hc.
  apply Forall_cons in H as [H1 H2]. destruct (f pc) eqn:E; [by exists pc|].
  apply IH; [done | lia].
Qed.

(** X6: in every run within the contract, the barriers that the job
    notifies are the barriers that SetBarrier attached: while a call of
    Execute has not yet made its callback nothing is notified, and once
    the call that ran the job has returned, OnJobFinished has been called
    on exactly the non-null barriers for which SetBarrier returned true
    (none or one), and on no barrier for which it returned false. *)
Theorem attached_barrier_is_notified (n : Z) (ls : list Label) :
  legal (init n) ls = true ->
  let s := run ls (init n) in
  (notified (log s) = [] \/ notified (log s) = attached (init n) ls) /\
  (payloads s = 1%nat -> count_pc executing (calls s) = O ->
   count_pc notifying (calls s) = O ->
   notified (log s) = attached (init n) ls) /\
  (mBarrier (job s) <> cBarrierDoneState ->
   attached (init n) ls = real_barrier (mBarrier (job s))).
Proof.
  intros Hl s.
  pose proof (Inv_reachable n ls Hl) as (Hpcs & _ & Hph).
  assert (HB : barrier_inv (init n) []).
  { split_and!; [constructor | done | done]. }
  pose proof (barrier_inv_run ls (init n) [] (Inv_init n) Hl HB) as (Hc & Hopen & Hclosed).
  simpl in Hc, Hopen, Hclosed. fold s in Hpcs, Hph, Hc, Hopen, Hclosed.
  unfold phase_idle, phase_executing, phase_done in Hph.
  assert (Hdone : payloads s = 1%nat -> count_pc executing (calls s) = O ->
                  count_pc notifying (calls s) = O ->
                  notified (log s) = attached (init n) ls).
  { intros Hp He Hn. apply Hclosed; [|done|done].
    destruct Hph as [H|[H|H]]; [lia | lia | apply H]. }
  split_and!; [|done|by intros H; destruct (Hopen H)].
  destruct (Z.eq_dec (mBarrier (job s)) cBarrierDoneState) as [E|E];
    [|left; by destruct (Hopen E)].
  destruct (Nat.eq_dec (count_pc executing (calls s)) O) as [He|He].
  - destruct (Nat.eq_dec (count_pc notifying (calls s)) O) as [Hn|Hn].
    + right. apply Hdone; [|done|done]. destruct Hph as [H|[H|H]]; [tauto | lia | apply H].
    + left. destruct (count_pc_Forall _ notifying _ Hc) as (pc & H1 & H2); [lia|].
      destruct pc; try done. apply H1.
  - left.
    assert (Hboth : Forall (fun pc => pc_ok (payloads s) (mBarrier (job s)) pc /\
                      holds_barrier (attached (init n) ls) (notified (log s)) pc)
                      (calls s)) by (by apply Forall_and).
    destruct (count_pc_Forall _ executing _ Hboth) as (pc & [H1 H1'] & H2); [lia|].
    destruct pc; try done; simpl in H1; try tauto. apply H1'.
Qed.


Lemma attached_barrier_is_notified_witness :
  legal (init 0) barrier_set_during_payload = true /\
  notified (log (run barrier_set_during_payload (init 0))) = [4096] /\
  attached (init 0) barrier_set_during_payload = [4096].
Proof.
  split; [reflexivity|].
  pose proof (attached_barrier_is_notified 0 barrier_set_during_payload eq_refl)
    as (_ & H & _).
  split; [reflexivity|]. rewrite <- H; reflexivity.
Defined.

Lemma barrier_set_step l s :
  mBarrier (job s) <> 0 -> mBarrier (job (step l s)) <> 0.
Proof.
  intros H. destruct l; simpl; try done.
  - destruct (calls s !! i) as [pc|]; [|done].
    destruct pc; unfold exec_step, Atomic.compare_exchange_strong;
      repeat match goal with |- context [ ?x =? ?y ] => destruct (Z.eqb_spec x y) end;
      done.
  - unfold SetBarrier, Atomic.compare_exchange_strong.
    apply Z.eqb_neq in H. rewrite H. simpl. by apply Z.eqb_neq.
Qed.

Lemma attaches_cases s l :
  attaches s l = [] \/
  exists b, attaches s l = [b] /\ mBarrier (job (step l s)) <> 0.
Proof.
  destruct l; try by left. simpl.
  unfold SetBarrier, Atomic.compare_exchange_strong, real_barrier.
  destruct (Z.eqb_spec (mBarrier (job s)) 0); simpl; [|by left].
  destruct (Z.eqb_spec inBarrier 0); [by left|]. right. by exists inBarrier.
Qed.

(** X7: a Job belongs to at most one barrier: in every run, whatever the
    threads do, at most one call of SetBarrier with a non-null barrier
    returns true, and none does once the slot is no longer 0. *)
Theorem SetBarrier_attaches_at_most_once (ls : list Label) : forall (s : Sys),
  (length (attached s ls) <= 1)%nat /\
  (mBarrier (job s) <> 0 -> attached s ls = []).
Proof.
  induction ls as [|l ls IH]; intros s; [split; [simpl; lia | done]|].
  destruct (IH (step l s)) as [IH1 IH2].
  change (attached s (l :: ls)) with (attaches s l ++ attached (step l s) ls).
  split.
  - rewrite length_app.
    destruct (attaches_cases s l) as [-> | (b & -> & Hb)]; [simpl; lia|].
    rewrite (IH2 Hb). simpl. lia.
  - intros H. rewrite (IH2 (barrier_set_step l s H)), app_nil_r.
    destruct l; try done. simpl. unfold SetBarrier, Atomic.compare_exchange_strong.
    apply Z.eqb_neq in H. by rewrite H.
Qed.

Lemma SetBarrier_attaches_at_most_once_witness :
  mBarrier (job (run [LSetBarrier 4096] (init 1))) <> 0 /\
  attached (run [LSetBarrier 4096] (init 1))
           [LSetBarrier 8192; LCallExecute; LSetBarrier 12288] = [].
Proof.
  split; [done|].
  apply (SetBarrier_attaches_at_most_once
           [LSetBarrier 8192; LCallExecute; LSetBarrier 12288]
           (run [LSetBarrier 4096] (init 1))). done.
Defined.

(** X8: attaching a barrier after the job has finished fails: in every run
    within the contract, once the call that ran the payload has marked the
    job done, SetBarrier returns false and changes nothing, whatever the
    barrier. *)
Theorem SetBarrier_fails_on_finished_job (n : Z) (ls : list Label) (inBarrier : Z) :
  legal (init n) ls = true ->
  payloads (run ls (init n)) = 1%nat ->
  count_pc executing (calls (run ls (init n))) = O ->
  SetBarrier inBarrier (job (run ls (init n))) = (job (run ls (init n)), false) /\
  IsDone (job (run ls (init n))) = true.
Proof.
  intros Hl Hp He. pose proof (Inv_reachable n ls Hl) as (_ & _ & Hph).
  unfold phase_idle, phase_executing, phase_done in Hph.
  destruct Hph as [H|[H|H]]; [lia | lia |].
  destruct H as (_ & _ & _ & Hc & Hb). split.
  - unfold SetBarrier, Atomic.compare_exchange_strong. rewrite Hb. simpl.
    by rewrite <- Hb, set_mBarrier_same.
  - unfold IsDone. by apply Z.eqb_eq.
Qed.

Lemma SetBarrier_fails_on_finished_job_witness :
  legal (init 0) one_call_to_completion = true /\
  SetBarrier 4096 (job (run one_call_to_completion (init 0))) =
  (job (run one_call_to_completion (init 0)), false).
Proof.
  split; [reflexivity|].
  apply (SetBarrier_fails_on_finished_job 0 one_call_to_completion 4096); reflexivity.
Defined.

(** ** The retry loop of Execute *)

(** A step in which the compare-and-swap of the barrier slot fails, so
    that the loop goes round again. *)
Definition freeze_fails (s : Sys) (l : Label) : nat :=
  match l with
  | LExecuteStep i =>
      match calls s !! i with
      | Some (AtFreezeBarrier x) => if mBarrier (job s) =? x then 0 else 1
      | _ => 0
      end
  | _ => 0
  end.

Fixpoint failed_freezes (s : Sys) (ls : list Label) : nat :=
  match ls with
  | [] => O
  | l :: ls' => (freeze_fails s l + failed_freezes (step l s) ls')%nat
  end.

(** The value a call has loaded is the slot, unless a barrier was set in
    between, which happens before any failure. *)
Definition loaded_ok (b : Z) (k : nat) (pc : ExecPc) : Prop :=
  match pc with
  | AtFreezeBarrier x => x = b \/ (x = 0 /\ k = O)
  | _ => True
  end.

Definition freeze_inv (s : Sys) (k : nat) : Prop :=
  (k <= 1)%nat /\ (k = 1%nat -> mBarrier (job s) <> 0) /\
  Forall (loaded_ok (mBarrier (job s)) k) (calls s).

Lemma loaded_ok_others (b' : Z) (k' : nat) (l : list ExecPc) :
  count_pc executing l = O -> Forall (loaded_ok b' k') l.
Proof.
  induction l as [|pc l IH]; intros He; [constructor|]. simpl in He.
  apply Forall_cons. split.
  - destruct pc; simpl in *; try done; lia.
  - apply IH. destruct (executing pc); lia.
Qed.

Lemma freeze_inv_step s l k :
  Inv s -> label_ok s l = true ->
  freeze_inv s k -> freeze_inv (step l s) (k + freeze_fails s l).
Proof.
  destruct s as [[b rc c] ts lg].
  unfold Inv, freeze_inv, phase_idle, phase_executing, phase_done, payloads, notifications.
  simpl. intros (Hpcs & _ & Hph) Hok (Hk & Hk1 & Hcalls).
  destruct l; simpl in *; rewrite ?Nat.add_0_r.
  - split_and!; try done. apply Forall_app. split; [done|]. by repeat constructor.
  - destruct (ts !! i) as [pc|] eqn:Hi; [|by rewrite Nat.add_0_r].
    destruct (calls_split _ _ _ Hi) as (l1 & l2 & Hts & Hins). clear Hi.
    rewrite Hts in *. rewrite !count_pc_app in *. simpl in *.
    apply Forall_app in Hpcs as [Hp1 Hpcs]. apply Forall_cons in Hpcs as [Hpc Hp2].
    apply Forall_app in Hcalls as [Hl1 Hcalls]. apply Forall_cons in Hcalls as [Hc Hl2].
    pose proof sentinels_distinct as (Hs1 & Hs2 & Hs3).
    assert (H0 : 0 <> cBarrierDoneState) by done.
    destruct pc; unfold exec_step, Atomic.compare_exchange_strong;
      repeat match goal with |- context [ ?x =? ?y ] => destruct (Z.eqb_spec x y) end;
      simpl; rewrite Hins, ?Forall_app, ?Forall_cons;
      simpl in *; subst; rewrite ?Nat.add_0_r.
    all: try (split_and!; try done; try tauto; try lia).
    all: try (apply loaded_ok_others; lia).
  - unfold SetBarrier, Atomic.compare_exchange_strong. simpl.
    destruct (Z.eqb_spec b 0) as [->|Hb0]; simpl; [|done].
    assert (k = O) by (destruct (Nat.eq_dec k 1%nat) as [E|E]; [by destruct (Hk1 E) | lia]).
    subst k. split_and!; [lia | lia |].
    eapply Forall_impl; [exact Hcalls|]. intros pc. destruct pc; simpl; try done.
    intros [->| [-> _]]; by right.
  - done.
  - unfold Atomic.pre_decrement. by destruct (Atomic.wrap32 (rc - 1) =? 0).
  - done.
  - clear Hok. by destruct (Atomic.wrap32 (c - inCount) =? 0).
Qed.

Lemma freeze_inv_run ls : forall s k,
  Inv s -> legal s ls = true -> freeze_inv s k ->
  freeze_inv (run ls s) (k + failed_freezes s ls).
Proof.
  induction ls as [|l ls IH]; intros s k HI Hl HF.
  - simpl. by rewrite Nat.add_0_r.
  - simpl in Hl. apply andb_true_iff in Hl as [Hok Hl].
    rewrite run_cons. simpl failed_freezes. rewrite Nat.add_assoc.
    apply IH; [by apply Inv_step | done | by apply freeze_inv_step].
Qed.

(** X9: the loop in which Execute exchanges the barrier slot for
    cBarrierDoneState goes round at most twice: in every run within the
    contract its compare-and-swap fails at most once, over all calls of
    Execute and whatever the interleaving; and if it has failed a barrier
    is in the slot. *)
Theorem Execute_retries_at_most_once (n : Z) (ls : list Label) :
  legal (init n) ls = true ->
  (failed_freezes (init n) ls <= 1)%nat /\
  (failed_freezes (init n) ls = 1%nat -> mBarrier (job (run ls (init n))) <> 0).
Proof.
  intros Hl.
  assert (HF : freeze_inv (init n) O).
  { split_and!; [lia | done | constructor]. }
  pose proof (freeze_inv_run ls (init n) O (Inv_init n) Hl HF) as (H1 & H2 & _).
  simpl in H1, H2. done.
Qed.

(** A barrier is set between the load of the slot and its exchange. *)
Definition barrier_set_before_exchange : list Label :=
  [LCallExecute; LExecuteStep 0; LExecuteStep 0; LExecuteStep 0; LSetBarrier 4096;
   LExecuteStep 0; LExecuteStep 0; LExecuteStep 0; LExecuteStep 0; LExecuteStep 0].

Lemma Execute_retries_at_most_once_witness :
  legal (init 0) barrier_set_before_exchange = true /\
  failed_freezes (init 0) barrier_set_before_exchange = 1%nat /\
  log (run barrier_set_before_exchange (init 0)) =
    [EvJobFunction; EvOnJobFinished 4096] /\
  (failed_freezes (init 0) barrier_set_before_exchange <= 1)%nat.
Proof.
  split; [reflexivity|]. split; [reflexivity|]. split; [reflexivity|].
  apply (Execute_retries_at_most_once 0 barrier_set_before_exchange). reflexivity.
Defined.

(** * Jolt/Core/Color.cpp: the table of distinct colours *)

Module Color.

(** [Color(inRed, inGreen, inBlue)]: the three arguments, each a uint8. *)
Record t : Type := mk { red : Z; green : Z; blue : Z }.

#[global] Instance t_eq_dec : EqDecision t.
Proof. solve_decision. Defined.

Definition sColors : list t :=
  [ mk 255 0 0; mk 204 143 102; mk 226 242 0; mk 41 166 124; mk 0 170 255;
    mk 69 38 153; mk 153 38 130; mk 229 57 80; mk 204 0 0; mk 255 170 0;
    mk 85 128 0; mk 64 255 217; mk 0 75 140; mk 161 115 230; mk 242 61 157;
    mk 178 101 89; mk 140 94 0; mk 181 217 108; mk 64 242 255; mk 77 117 153;
    mk 157 61 242; mk 140 0 56; mk 127 57 32; mk 204 173 51; mk 64 255 64;
    mk 38 145 153; mk 0 102 255; mk 242 0 226; mk 153 77 107; mk 229 92 0;
    mk 140 126 70; mk 0 179 71; mk 0 194 242; mk 27 0 204; mk 230 115 222;
    mk 127 0 17 ].

(** [sizeof(sColors) / sizeof(uint32)]: the size of a Color comes from
    Color.h and is a parameter here. *)
Definition table_modulus (sizeof_Color : Z) : Z :=
  (Z.of_nat (length sColors) * sizeof_Color) / 4.

(** [sColors[inIndex % (sizeof(sColors) / sizeof(uint32))]]: the int
    [inIndex] is converted to size_t, of [size_t_bits] bits, for the
    unsigned remainder; an index outside the table has no value. *)
Definition sGetDistinctColor (sizeof_Color size_t_bits : Z) (inIndex : Z) : option t :=
  sColors !! Z.to_nat ((inIndex mod 2 ^ size_t_bits) mod table_modulus sizeof_Color).

End Color.

Lemma sColors_NoDup : NoDup Color.sColors.
Proof. apply (bool_decide_unpack _). by vm_compute. Qed.

Lemma sColors_length : length Color.sColors = 36%nat.
Proof. reflexivity. Qed.

Lemma table_modulus_4 : Color.table_modulus 4 = 36.
Proof. reflexivity. Qed.

Lemma sColors_lookup (z : Z) :
  exists c, Color.sColors !! Z.to_nat (z mod 36) = Some c.
Proof.
  apply lookup_lt_is_Some. rewrite sColors_length.
  pose proof (Z.mod_pos_bound z 36 ltac:(lia)). lia.
Qed.

(** X10: for a Color of the size of a uint32, sGetDistinctColor reads
    inside the table for every int index and every width of size_t, a
    negative index included (the assertion on it is a debug check); with a
    64-bit size_t a negative index i selects the entry (i + 16) mod 36,
    since the index is converted to unsigned before the remainder. *)
Theorem sGetDistinctColor_in_table (size_t_bits inIndex : Z) :
  (exists c, Color.sGetDistinctColor 4 size_t_bits inIndex = Some c /\
             In c Color.sColors) /\
  (- 2 ^ 31 <= inIndex < 0 ->
   Color.sGetDistinctColor 4 64 inIndex =
   Color.sColors !! Z.to_nat ((inIndex + 16) mod 36)).
Proof.
  unfold Color.sGetDistinctColor. rewrite table_modulus_4. split.
  - destruct (sColors_lookup (inIndex mod 2 ^ size_t_bits)) as [c Hc].
    exists c. split; [done|]. apply list_elem_of_In. by eapply list_elem_of_lookup_2.
  - intros Hneg. f_equal. f_equal.
    assert (H64 : inIndex mod 2 ^ 64 = inIndex + 2 ^ 64).
    { symmetry. apply (Z.mod_unique_pos _ _ (-1)); lia. }
    rewrite H64.
    replace (inIndex + 2 ^ 64) with (inIndex + 16 + 512409557603043100 * 36) by lia.
    apply Z_mod_plus_full.
Qed.

Lemma sGetDistinctColor_in_table_witness :
  - 2 ^ 31 <= -1 < 0 /\
  Color.sGetDistinctColor 4 64 (-1) = Some (Color.mk 178 101 89).
Proof.
  split; [lia|].
  rewrite (proj2 (sGetDistinctColor_in_table 64 (-1))); [reflexivity | lia].
Defined.

(** X11: the colours of the table are pairwise distinct and the table is
    walked cyclically: for non-negative int indices (and a Color of the
    size of a uint32, a size_t of at least 31 bits), two indices give the
    same colour exactly when they are equal modulo 36. *)
Theorem sGetDistinctColor_same_iff (size_t_bits i j : Z) :
  31 <= size_t_bits ->
  0 <= i < 2 ^ 31 -> 0 <= j < 2 ^ 31 ->
  (Color.sGetDistinctColor 4 size_t_bits i = Color.sGetDistinctColor 4 size_t_bits j
   <-> i mod 36 = j mod 36).
Proof.
  intros Hw Hi Hj. unfold Color.sGetDistinctColor. rewrite table_modulus_4.
  assert (Hpow : 2 ^ 31 <= 2 ^ size_t_bits) by (apply Z.pow_le_mono_r; lia).
  rewrite !(Z.mod_small _ (2 ^ size_t_bits)) by lia.
  split; [|by intros ->].
  intros Heq. destruct (sColors_lookup i) as [c Hc].
  rewrite Hc in Heq. symmetry in Heq.
  pose proof (NoDup_lookup _ _ _ _ sColors_NoDup Hc Heq) as Hn.
  pose proof (Z.mod_pos_bound i 36 ltac:(lia)).
  pose proof (Z.mod_pos_bound j 36 ltac:(lia)). lia.
Qed.

Lemma sGetDistinctColor_same_iff_witness :
  31 <= 64 /\ 0 <= 5 < 2 ^ 31 /\ 0 <= 41 < 2 ^ 31 /\
  Color.sGetDistinctColor 4 64 5 = Color.sGetDistinctColor 4 64 41.
Proof.
  split; [lia|]. split; [lia|]. split; [lia|].
  apply (sGetDistinctColor_same_iff 64 5 41); [lia | lia | lia | reflexivity].
Defined.
